(** * RunLogger: execution-order bookkeeping of the REST tracing notebook

    Shallow embedding of the [RunLogger] helper class of
    [tracing-examples/rest/rest.ipynb] and the properties of its two
    bookkeeping methods, [_get_execution_order] ("begin") and
    [_update_execution_order] ("end"), of the two public methods
    [post_run] and [patch_run] built on them, and of the notebook's
    [fibonacci] function, which logs its invocations through them.

    The class owns two Python dictionaries keyed by run id (a [str]):
    [_run_map], holding an [int] per id, and [_parents], holding the parent
    id of every run that was begun with one.  Both are modelled as [gmap]s;
    Python's unbounded [int] is [Z]. *)

From Stdlib Require Import ZArith String List Lia.
From stdpp Require Import gmap strings list fin_maps sorting pretty.

Local Open Scope string_scope.
Local Open Scope Z_scope.

(** ** Python values and exceptions *)

(** The only exception the two methods can raise is the [KeyError] of a
    subscript [d[k]] on a missing key. *)
Inductive exn : Type :=
| KeyError (key : string).

Inductive outcome (A : Type) : Type :=
| Returned (a : A)
| Raised (e : exn).
Arguments Returned {A} a.
Arguments Raised {A} e.

(** What a method hands back: [begin] returns an [int], [end] returns
    [None]. *)
Inductive value : Type :=
| VInt (n : Z)
| VNone.

(** Truthiness of an [Optional[str]], as tested by [if parent_run_id:]:
    [None] and the empty string are false.  [present] keeps the string
    exactly when the test succeeds. *)
Definition present (parent_run_id : option string) : option string :=
  match parent_run_id with
  | Some (String a s) => Some (String a s)
  | Some EmptyString => None
  | None => None
  end.

(** ** The object state *)

Record RunLogger : Type := mkRunLogger {
  _run_map : gmap string Z;
  _parents : gmap string string
}.

(** [RunLogger.__init__] *)
Definition __init__ : RunLogger :=
  {| _run_map := ∅; _parents := ∅ |}.

(** ** A state monad with exceptions

    A method body is a function from the object state to the state it
    leaves behind and either a result or the exception raised.  Mutations
    made before a raise persist, as they do in Python. *)
Definition M (A : Type) : Type := RunLogger → RunLogger * outcome A.

Definition ret {A : Type} (a : A) : M A := λ self, (self, Returned a).

Definition bind {A B : Type} (m : M A) (k : A → M B) : M B :=
  λ self,
    match m self with
    | (self', Returned a) => k a self'
    | (self', Raised e) => (self', Raised e)
    end.

Notation "x <~ m ;; k" := (bind m (λ x, k))
  (at level 62, m at next level, right associativity, only parsing).
Notation "m ;;; k" := (bind m (λ _, k))
  (at level 62, right associativity, only parsing).

(** The dictionary operations the methods use. *)

(** [self._run_map.get(k, d)] *)
Definition run_map_get (k : string) (d : Z) : M Z :=
  λ self, (self, Returned (default d (_run_map self !! k))).

(** [self._run_map[k]] *)
Definition run_map_getitem (k : string) : M Z :=
  λ self,
    match _run_map self !! k with
    | Some v => (self, Returned v)
    | None => (self, Raised (KeyError k))
    end.

(** [self._run_map[k] = v] *)
Definition run_map_setitem (k : string) (v : Z) : M unit :=
  λ self,
    ({| _run_map := <[k := v]> (_run_map self); _parents := _parents self |},
     Returned tt).

(** [self._parents[k] = v] *)
Definition parents_setitem (k : string) (v : string) : M unit :=
  λ self,
    ({| _run_map := _run_map self; _parents := <[k := v]> (_parents self) |},
     Returned tt).

(** [self._parents.pop(k, None)] *)
Definition parents_pop (k : string) : M (option string) :=
  λ self,
    ({| _run_map := _run_map self; _parents := delete k (_parents self) |},
     Returned (_parents self !! k)).

(** ** The two methods *)

(** [RunLogger._get_execution_order(self, run_id, parent_run_id)] *)
Definition _get_execution_order
    (run_id : string) (parent_run_id : option string) : M Z :=
  execution_order <~
    match present parent_run_id with
    | Some parent_run_id =>
        parents_setitem run_id parent_run_id ;;;
        execution_order <~ run_map_get parent_run_id 0 ;;
        let execution_order := execution_order + 1 in
        run_map_setitem parent_run_id execution_order ;;;
        ret execution_order
    | None => ret 1
    end ;;
  run_map_setitem run_id execution_order ;;;
  ret execution_order.

(** [RunLogger._update_execution_order(self, run_id)] *)
Definition _update_execution_order (run_id : string) : M unit :=
  exec_order <~ run_map_getitem run_id ;;
  parent_run_id <~ parents_pop run_id ;;
  match present parent_run_id with
  | Some parent_run_id =>
      current <~ run_map_getitem parent_run_id ;;
      run_map_setitem parent_run_id (Z.max exec_order current)
  | None => ret tt
  end.

(** ** Calls and traces *)

Inductive call : Type :=
| Begin (run_id : string) (parent_run_id : option string)
| End (run_id : string).

Definition perform (c : call) : M value :=
  match c with
  | Begin run_id parent_run_id =>
      n <~ _get_execution_order run_id parent_run_id ;; ret (VInt n)
  | End run_id =>
      _update_execution_order run_id ;;; ret VNone
  end.

(** The state after a sequence of calls; a caller that catches a
    [KeyError] carries on with the state the failed call left. *)
Fixpoint run (tr : list call) (self : RunLogger) : RunLogger :=
  match tr with
  | [] => self
  | c :: tr' => run tr' (fst (perform c self))
  end.

(** Every call of a trace paired with its outcome. *)
Fixpoint run_log (tr : list call) (self : RunLogger)
    : list (call * outcome value) :=
  match tr with
  | [] => []
  | c :: tr' =>
      let '(self', r) := perform c self in (c, r) :: run_log tr' self'
  end.

(** ** Observations on states and traces *)

(** The counter a child of [p] is numbered from:
    [self._run_map.get(p, 0)]. *)
Definition counter (self : RunLogger) (p : string) : Z :=
  default 0 (_run_map self !! p).

(** [c] is a begin call whose run id is [p]. *)
Definition is_begin_of (p : string) (c : call) : bool :=
  match c with
  | Begin run_id _ => bool_decide (run_id = p)
  | End _ => false
  end.

(** [c] is a begin call that passes [p] as its parent. *)
Definition is_begin_under (p : string) (c : call) : bool :=
  match c with
  | Begin _ parent_run_id => bool_decide (present parent_run_id = Some p)
  | End _ => false
  end.

(** [c] mentions [r], as the run id or as the parent of a begin call. *)
Definition mentions (r : string) (c : call) : bool :=
  is_begin_of r c || is_begin_under r c.

(** The orders returned, in call order, by the begin calls of a log that
    pass [p] as their parent. *)
Fixpoint orders_under (p : string) (log : list (call * outcome value))
    : list Z :=
  match log with
  | [] => []
  | (c, Returned (VInt n)) :: log' =>
      if is_begin_under p c then n :: orders_under p log'
      else orders_under p log'
  | _ :: log' => orders_under p log'
  end.

(** A call other than a begin under [p] that may write [p]'s entry of
    [_run_map]: a begin of [p] itself, or the end of a run whose recorded
    parent is [p]. *)
Definition disturbs (p : string) (self : RunLogger) (c : call) : bool :=
  match c with
  | Begin run_id parent_run_id =>
      negb (is_begin_under p c) && bool_decide (run_id = p)
  | End run_id => bool_decide (present (_parents self !! run_id) = Some p)
  end.

(** No call of the trace, run from [self], disturbs [p]'s entry. *)
Fixpoint undisturbed (p : string) (tr : list call) (self : RunLogger)
    : bool :=
  match tr with
  | [] => true
  | c :: tr' =>
      negb (disturbs p self c) && undisturbed p tr' (fst (perform c self))
  end.

(** The entries of [_run_map] a call may write: the run's own and its
    direct parent's (the parent passed to begin, the parent recorded for
    end). *)
Definition touched (c : call) (self : RunLogger) : list string :=
  match c with
  | Begin run_id parent_run_id =>
      run_id :: option_list (present parent_run_id)
  | End run_id =>
      run_id :: option_list (present (_parents self !! run_id))
  end.

(** Every recorded parent link is a non-empty id, and both of its ends
    have an entry in [_run_map]. *)
Definition linked (self : RunLogger) : Prop :=
  ∀ r p, _parents self !! r = Some p →
    p ≠ EmptyString ∧ is_Some (_run_map self !! r) ∧
    is_Some (_run_map self !! p).

(** How many calls of the trace are begins under [p]. *)
Definition begins_under (p : string) (tr : list call) : nat :=
  length (List.filter (is_begin_under p) tr).

(** The order returned by the most recent begin of [r] in a log. *)
Fixpoint last_begin_order (r : string) (log : list (call * outcome value))
    : option Z :=
  match log with
  | [] => None
  | (c, o) :: log' =>
      match last_begin_order r log' with
      | Some n => Some n
      | None =>
          match o with
          | Returned (VInt n) => if is_begin_of r c then Some n else None
          | _ => None
          end
      end
  end.

(** The parent link the calls of a trace leave for [r], starting from
    [link]: a begin of [r] that takes the parent branch records the parent
    it passes, an end of [r] pops the link, and no other call touches it. *)
Fixpoint open_link (r : string) (tr : list call) (link : option string)
    : option string :=
  match tr with
  | [] => link
  | Begin run_id parent_run_id :: tr' =>
      if bool_decide (run_id = r) then
        match present parent_run_id with
        | Some p => open_link r tr' (Some p)
        | None => open_link r tr' link
        end
      else open_link r tr' link
  | End run_id :: tr' =>
      if bool_decide (run_id = r) then open_link r tr' None
      else open_link r tr' link
  end.

(** Every order stored in [_run_map] is at least 1. *)
Definition orders_positive (self : RunLogger) : Prop :=
  ∀ k v, _run_map self !! k = Some v → 1 ≤ v.

(** ** The callers: [post_run], [patch_run] and [fibonacci]

    The two public methods of [RunLogger] do the bookkeeping and then send
    an HTTP request; [fibonacci] is the notebook's function that logs each
    of its invocations through the module-level [logger]. *)

(** JSON payloads: the [dict]s passed as [inputs] and [outputs]. *)
#[warnings="-register-all"]
Inductive json : Type :=
| JNull
| JInt (n : Z)
| JStr (s : string)
| JObj (fields : list (string * json)).

(** The exceptions the callers are modelled to raise and that reach
    [fibonacci]'s [except Exception] clause: a [KeyError] from the
    bookkeeping and the [ValueError] of the second definition. *)
Inductive Exception : Type :=
| Key (e : exn)
| ValueError (msg : string).

Inductive completion (A : Type) : Type :=
| Normal (a : A)
| Throw (e : Exception).
Arguments Normal {A} a.
Arguments Throw {A} e.

(** The [json=] argument of [requests.post] in [post_run]. *)
Record post_body : Type := mkPost {
  post_id : string;
  post_name : string;
  post_run_type : string;
  post_parent_run_id : option string;
  post_execution_order : Z;
  post_inputs : json;
  post_start_time : string;
  post_session_name : string
}.

(** The [json=] argument of [requests.patch] in [patch_run]. *)
Record patch_body : Type := mkPatch {
  patch_error : option string;
  patch_outputs : option json;
  patch_end_time : string
}.

(** A request as handed to the [requests] library: the URL, the body and
    the value of the [x-api-key] header. *)
Inductive request : Type :=
| POST (url : string) (body : post_body) (x_api_key : string)
| PATCH (url : string) (body : patch_body) (x_api_key : string).

(** What the code takes from outside the notebook: the library calls
    [str(uuid.uuid4())] and [datetime.datetime.utcnow().isoformat()], given
    by the value of their k-th call, [str(e)] on an exception, and the two
    module-level constants read from the environment. *)
Class Python : Type := {
  uuid4 : nat → string;
  utcnow : nat → string;
  exn_str : Exception → string;
  _LANGSMITH_API_KEY : string;
  _LANGSMITH_PROJECT : string
}.

(** The state the callers act on: the module-level [logger], the requests
    sent so far (oldest first), and how often the clock was read and an id
    was drawn.  [requests.post] and [requests.patch] are taken to deliver
    and return; their result is discarded by the code. *)
Record World : Type := mkWorld {
  logger : RunLogger;
  sent : list request;
  clock : nat;
  drawn : nat
}.

(** [logger = RunLogger()] in a notebook that has sent nothing yet. *)
Definition new_world : World :=
  {| logger := __init__; sent := []; clock := 0%nat; drawn := 0%nat |}.

Definition W (A : Type) : Type := World → World * completion A.

Definition wret {A : Type} (a : A) : W A := λ w, (w, Normal a).

Definition throw {A : Type} (e : Exception) : W A := λ w, (w, Throw e).

Definition wbind {A B : Type} (m : W A) (k : A → W B) : W B :=
  λ w,
    match m w with
    | (w', Normal a) => k a w'
    | (w', Throw e) => (w', Throw e)
    end.

(** A method of [logger] run on the world's logger. *)
Definition on_logger {A : Type} (m : M A) : W A :=
  λ w,
    match m (logger w) with
    | (self', r) =>
        ({| logger := self'; sent := sent w; clock := clock w;
            drawn := drawn w |},
         match r with
         | Returned a => Normal a
         | Raised e => Throw (Key e)
         end)
    end.

Declare Scope world_scope.
Notation "x <~ m ;; k" := (wbind m (λ x, k))
  (at level 62, m at next level, right associativity, only parsing)
  : world_scope.
Notation "m ;;; k" := (wbind m (λ _, k))
  (at level 62, right associativity, only parsing) : world_scope.

(** A computation that may leave the model: [None] stands for a run in
    which the nesting of calls passes the interpreter's recursion limit.
    The code then raises [RecursionError] somewhere inside the calls of the
    deepest invocation and unwinds through the [except] clauses; nothing
    of that is modelled. *)
Definition P (A : Type) : Type := World → option (World * completion A).

(** A computation that stays within the model. *)
Definition within {A : Type} (m : W A) : P A := λ w, Some (m w).

(** The recursion limit is passed. *)
Definition beyond {A : Type} : P A := λ _, None.

Definition pbind {A B : Type} (m : P A) (k : A → P B) : P B :=
  λ w,
    match m w with
    | Some (w', Normal a) => k a w'
    | Some (w', Throw e) => Some (w', Throw e)
    | None => None
    end.

(** [try: body except Exception as e: handler(e)] *)
Definition try_except {A : Type} (body : P A) (handler : Exception → P A)
    : P A :=
  λ w,
    match body w with
    | Some (w', Normal a) => Some (w', Normal a)
    | Some (w', Throw e) => handler e w'
    | None => None
    end.

Declare Scope partial_scope.
Notation "x <~ m ;; k" := (pbind m (λ x, k))
  (at level 62, m at next level, right associativity, only parsing)
  : partial_scope.
Notation "m ;;; k" := (pbind m (λ _, k))
  (at level 62, right associativity, only parsing) : partial_scope.

Section Callers.
Context `{Python}.
Local Open Scope world_scope.

(** [str(uuid.uuid4())] *)
Definition uuid_uuid4_str : W string :=
  λ w,
    ({| logger := logger w; sent := sent w; clock := clock w;
        drawn := S (drawn w) |}, Normal (uuid4 (drawn w))).

(** [datetime.datetime.utcnow().isoformat()] *)
Definition utcnow_isoformat : W string :=
  λ w,
    ({| logger := logger w; sent := sent w; clock := S (clock w);
        drawn := drawn w |}, Normal (utcnow (clock w))).

(** [requests.post(url, json=body, headers={"x-api-key": key})] and
    [requests.patch(...)] *)
Definition requests_send (r : request) : W unit :=
  λ w,
    ({| logger := logger w; sent := sent w ++ [r]; clock := clock w;
        drawn := drawn w |}, Normal tt).

(** [RunLogger.post_run(self, data, name, run_id, parent_run_id)] *)
Definition post_run (data : json) (name : string) (run_id : string)
    (parent_run_id : option string) : W unit :=
  execution_order <~
    on_logger (_get_execution_order run_id parent_run_id) ;;
  start_time <~ utcnow_isoformat ;;
  requests_send
    (POST "https://api.smith.langchain.com/runs"
       {| post_id := run_id;
          post_name := name;
          post_run_type := "chain";
          post_parent_run_id := parent_run_id;
          post_execution_order := execution_order;
          post_inputs := data;
          post_start_time := start_time;
          post_session_name := _LANGSMITH_PROJECT |}
       _LANGSMITH_API_KEY).

(** [RunLogger.patch_run(self, run_id, output, error)] *)
Definition patch_run (run_id : string) (output : option json)
    (error : option string) : W unit :=
  on_logger (_update_execution_order run_id) ;;;
  end_time <~ utcnow_isoformat ;;
  requests_send
    (PATCH ("https://api.smith.langchain.com/runs/" +:+ run_id)
       {| patch_error := error;
          patch_outputs := output;
          patch_end_time := end_time |}
       _LANGSMITH_API_KEY).

End Callers.

Section Fibonacci.
Context `{Python}.
Local Open Scope partial_scope.

(** [fibonacci(n, depth, parent_run_id)], first definition.  [budget] is
    the number of further levels of nested invocations for which the
    interpreter's recursion limit leaves room below this one; a call that
    would nest deeper leaves the model. *)
Fixpoint fibonacci (budget : nat) (n depth : Z)
    (parent_run_id : option string) : P Z :=
  run_id <~ within uuid_uuid4_str ;;
  within (post_run (JObj [("n", JInt n)]) "fibonacci_recursive" run_id
            parent_run_id) ;;;
  try_except
    (result <~
       (if decide (n ≤ 1) then within (wret n)
        else
          match budget with
          | O => beyond
          | S budget' =>
              a <~ fibonacci budget' (n - 1) (depth + 1) (Some run_id) ;;
              b <~ fibonacci budget' (n - 2) (depth + 1) (Some run_id) ;;
              within (wret (a + b))
          end) ;;
     within (patch_run run_id (Some (JObj [("result", JInt result)]))
               None) ;;;
     within (wret result))
    (λ e,
       within (patch_run run_id None (Some (exn_str e))) ;;;
       within (throw e)).

End Fibonacci.

(** The second definition of [fibonacci], which rejects a negative
    argument. *)
Module ErrorExample.
Section Fibonacci.
Context `{Python}.
Local Open Scope partial_scope.

Fixpoint fibonacci (budget : nat) (n depth : Z)
    (parent_run_id : option string) : P Z :=
  run_id <~ within uuid_uuid4_str ;;
  within (post_run (JObj [("n", JInt n)]) "fibonacci_recursive" run_id
            parent_run_id) ;;;
  try_except
    (result <~
       (if decide (n < 0)
        then within (throw (ValueError "NEGATIVE NUMER NOT ALLOWED"))
        else if decide (n ≤ 1) then within (wret n)
        else
          match budget with
          | O => beyond
          | S budget' =>
              a <~ fibonacci budget' (n - 1) (depth + 1) (Some run_id) ;;
              b <~ fibonacci budget' (n - 2) (depth + 1) (Some run_id) ;;
              within (wret (a + b))
          end) ;;
     within (patch_run run_id (Some (JObj [("result", JInt result)]))
               None) ;;;
     within (wret result))
    (λ e,
       within (patch_run run_id None (Some (exn_str e))) ;;;
       within (throw e)).

End Fibonacci.
End ErrorExample.

(** ** Observations on the requests sent *)

(** The [execution_order] of every POST, in the order sent. *)
Fixpoint post_orders (reqs : list request) : list Z :=
  match reqs with
  | [] => []
  | POST _ body _ :: reqs' => post_execution_order body :: post_orders reqs'
  | PATCH _ _ _ :: reqs' => post_orders reqs'
  end.

(** The run ids of the POSTs, in the order sent. *)
Fixpoint posted_ids (reqs : list request) : list string :=
  match reqs with
  | [] => []
  | POST _ body _ :: reqs' => post_id body :: posted_ids reqs'
  | PATCH _ _ _ :: reqs' => posted_ids reqs'
  end.

(** The URLs of the PATCHes, in the order sent. *)
Fixpoint patched_urls (reqs : list request) : list string :=
  match reqs with
  | [] => []
  | POST _ _ _ :: reqs' => patched_urls reqs'
  | PATCH url _ _ :: reqs' => url :: patched_urls reqs'
  end.

(** The [error] fields of the PATCHes, in the order sent. *)
Fixpoint patch_errors (reqs : list request) : list (option string) :=
  match reqs with
  | [] => []
  | POST _ _ _ :: reqs' => patch_errors reqs'
  | PATCH _ body _ :: reqs' => patch_error body :: patch_errors reqs'
  end.

(** The Fibonacci numbers. *)
Fixpoint Fib (k : nat) : Z :=
  match k with
  | O => 0
  | S k' =>
      match k' with
      | O => 1
      | S k'' => Fib k' + Fib k''
      end
  end.

(** How many invocations a call of [fibonacci] on [k] makes, itself
    included. *)
Fixpoint invocations (k : nat) : nat :=
  match k with
  | O => 1
  | S k' =>
      match k' with
      | O => 1
      | S k'' => S (invocations k' + invocations k'')
      end
  end.

(** No id still to be drawn has an entry in the logger's tables. *)
Definition ids_fresh `{Python} (w : World) : Prop :=
  ∀ k, (drawn w ≤ k)%nat →
    _run_map (logger w) !! uuid4 k = None ∧
    _parents (logger w) !! uuid4 k = None.

(** An id source for examples: the k-th id is ["run-"] followed by [k] in
    decimal. *)
Definition example_python : Python :=
  {| uuid4 := λ k, "run-" +:+ pretty k;
     utcnow := λ k, "t" +:+ pretty k;
     exn_str := λ e,
       match e with
       | Key (KeyError k) => "'" +:+ k +:+ "'"
       | ValueError msg => msg
       end;
     _LANGSMITH_API_KEY := "key";
     _LANGSMITH_PROJECT := "My REST Project" |}.

(** The counter a begin call with parent argument [q] numbers from: the
    parent's counter, or 0 for a root. *)
Definition order_base (q : option string) (self : RunLogger) : Z :=
  match present q with
  | Some p => counter self p
  | None => 0
  end.

(** The value [fibonacci] computes when it returns: its argument up to 1,
    the Fibonacci number above. *)
Definition fibonacci_value (n : Z) : Z :=
  if decide (n ≤ 1) then n else Fib (Z.to_nat n).

(** The URL [patch_run] sends to for a run id. *)
Definition run_url (run_id : string) : string :=
  "https://api.smith.langchain.com/runs/" +:+ run_id.

(** The logger is ready for a run to be begun with parent argument [q]:
    its links are sound, the ids still to be drawn are new to it, and the
    parent, if one is passed, has an entry. *)
Definition ready `{Python} (q : option string) (w : World) : Prop :=
  linked (logger w) ∧ ids_fresh w ∧
  ∀ p, present q = Some p → is_Some (_run_map (logger w) !! p).

(** What [count] runs, begun with parent argument [q] one after the other
    and each ended together with all its descendants, leave behind: they
    draw [count] ids and send [reqs]; the links are as before; the
    parent's counter has advanced by [count]; entries of other known ids
    are untouched and every new entry belongs to an id drawn meanwhile;
    the POSTs carry the orders that follow the parent's counter, in the
    order the ids were drawn, every run is PATCHed once, and no PATCH
    reports an error. *)
Definition subtree_effect `{Python} (q : option string) (count : nat)
    (w w' : World) (reqs : list request) : Prop :=
  drawn w' = (drawn w + count)%nat ∧
  sent w' = (sent w ++ reqs)%list ∧
  _parents (logger w') = _parents (logger w) ∧
  (∀ p, present q = Some p →
     _run_map (logger w') !! p =
       Some (counter (logger w) p + Z.of_nat count)) ∧
  (∀ k, present q ≠ Some k → is_Some (_run_map (logger w) !! k) →
     _run_map (logger w') !! k = _run_map (logger w) !! k) ∧
  (∀ k, is_Some (_run_map (logger w') !! k) →
     is_Some (_run_map (logger w) !! k) ∨
     ∃ j, (drawn w ≤ j < drawn w')%nat ∧ k = uuid4 j) ∧
  post_orders reqs =
    seqZ (order_base q (logger w) + 1) (Z.of_nat count) ∧
  posted_ids reqs = map uuid4 (seq (drawn w) count) ∧
  patched_urls reqs ≡ₚ map run_url (posted_ids reqs) ∧
  Forall (λ e, e = None) (patch_errors reqs).

(** * Properties *)

Ltac unfold_methods :=
  cbv beta iota zeta delta
    [perform _get_execution_order _update_execution_order bind ret
     run_map_get run_map_getitem run_map_setitem parents_setitem
     parents_pop] in *;
  cbn [_run_map _parents fst snd] in *.

(** ** Truthiness *)

Lemma present_Some (q : option string) (p : string) :
  present q = Some p ↔ q = Some p ∧ p ≠ EmptyString.
Proof.
  destruct q as [[|a s]|]; simpl; split;
    try (intros [? ?]); try intros ?; simplify_eq; try done.
Qed.

Lemma present_nonempty (q : option string) (p : string) :
  present q = Some p → p ≠ EmptyString.
Proof. intros H. by apply present_Some in H as [_ ?]. Qed.

(** ** The methods, one equation per path through the body *)

Lemma begin_root (r : string) (q : option string) (self : RunLogger) :
  present q = None →
  _get_execution_order r q self =
    ({| _run_map := <[r := 1]> (_run_map self);
        _parents := _parents self |}, Returned 1).
Proof. intros Hq. unfold_methods. by rewrite Hq. Qed.

Lemma begin_child (r : string) (q : option string) (p : string)
    (self : RunLogger) :
  present q = Some p →
  _get_execution_order r q self =
    ({| _run_map := <[r := counter self p + 1]>
                      (<[p := counter self p + 1]> (_run_map self));
        _parents := <[r := p]> (_parents self) |},
     Returned (counter self p + 1)).
Proof. intros Hq. unfold_methods. by rewrite Hq. Qed.

Lemma end_unknown (r : string) (self : RunLogger) :
  _run_map self !! r = None →
  _update_execution_order r self = (self, Raised (KeyError r)).
Proof. intros Hr. unfold_methods. by rewrite Hr. Qed.

Lemma end_unlinked (r : string) (n : Z) (self : RunLogger) :
  _run_map self !! r = Some n →
  present (_parents self !! r) = None →
  _update_execution_order r self =
    ({| _run_map := _run_map self;
        _parents := delete r (_parents self) |}, Returned tt).
Proof. intros Hr Hp. unfold_methods. by rewrite Hr, Hp. Qed.

Lemma end_linked (r p : string) (n v : Z) (self : RunLogger) :
  _run_map self !! r = Some n →
  present (_parents self !! r) = Some p →
  _run_map self !! p = Some v →
  _update_execution_order r self =
    ({| _run_map := <[p := Z.max n v]> (_run_map self);
        _parents := delete r (_parents self) |}, Returned tt).
Proof.
  intros Hr Hp Hv. unfold_methods. rewrite Hr, Hp.
  cbn [_run_map]. by rewrite Hv.
Qed.

Lemma end_dangling (r p : string) (n : Z) (self : RunLogger) :
  _run_map self !! r = Some n →
  present (_parents self !! r) = Some p →
  _run_map self !! p = None →
  _update_execution_order r self =
    ({| _run_map := _run_map self;
        _parents := delete r (_parents self) |}, Raised (KeyError p)).
Proof.
  intros Hr Hp Hv. unfold_methods. rewrite Hr, Hp.
  cbn [_run_map]. by rewrite Hv.
Qed.

(** Case analysis on the path a call takes. *)
Ltac begin_cases r q self :=
  let p := fresh "p" in
  let Hq := fresh "Hq" in
  destruct (present q) as [p|] eqn:Hq;
  [ rewrite (begin_child r q p self Hq) in *
  | rewrite (begin_root r q self Hq) in * ].

Ltac end_cases r self :=
  let n := fresh "n" in
  let p := fresh "p" in
  let v := fresh "v" in
  let Hr := fresh "Hr" in
  let Hp := fresh "Hp" in
  let Hv := fresh "Hv" in
  destruct (_run_map self !! r) as [n|] eqn:Hr;
  [ destruct (present (_parents self !! r)) as [p|] eqn:Hp;
    [ destruct (_run_map self !! p) as [v|] eqn:Hv;
      [ rewrite (end_linked r p n v self Hr Hp Hv) in *
      | rewrite (end_dangling r p n self Hr Hp Hv) in * ]
    | rewrite (end_unlinked r n self Hr Hp) in * ]
  | rewrite (end_unknown r self Hr) in * ].

Lemma perform_begin (r : string) (q : option string) (self : RunLogger) :
  perform (Begin r q) self =
    (fst (_get_execution_order r q self),
     match snd (_get_execution_order r q self) with
     | Returned n => Returned (VInt n)
     | Raised e => Raised e
     end).
Proof.
  cbv beta iota delta [perform bind ret].
  by destruct (_get_execution_order r q self) as [self' [n|e]].
Qed.

Lemma perform_end (r : string) (self : RunLogger) :
  perform (End r) self =
    (fst (_update_execution_order r self),
     match snd (_update_execution_order r self) with
     | Returned _ => Returned VNone
     | Raised e => Raised e
     end).
Proof.
  cbv beta iota delta [perform bind ret].
  by destruct (_update_execution_order r self) as [self' [n|e]].
Qed.

Ltac call_cases c self :=
  let r := fresh "r" in
  let q := fresh "q" in
  destruct c as [r q|r];
  [ rewrite (perform_begin r q self) in *; begin_cases r q self
  | rewrite (perform_end r self) in *; end_cases r self ];
  cbn [fst snd _run_map _parents] in *.

(** ** Begin never raises *)

Lemma begin_returns (r : string) (q : option string) (self : RunLogger) :
  ∃ self' n, _get_execution_order r q self = (self', Returned n) ∧
             _run_map self' !! r = Some n.
Proof.
  begin_cases r q self; eexists _, _; (split; [done|]);
    cbn [_run_map]; by rewrite lookup_insert_eq.
Qed.

(** ** The counter of [p] moves only upwards unless [p] itself is begun *)

Lemma perform_counter_mono (p : string) (c : call) (self : RunLogger) :
  is_begin_of p c = false →
  counter self p ≤ counter (fst (perform c self)) p.
Proof.
  intros Hc. unfold counter. call_cases c self; cbn in Hc;
    try (apply bool_decide_eq_false in Hc); try lia.
  - rewrite lookup_insert_ne by done.
    destruct (decide (p0 = p)) as [->|Hne].
    + rewrite lookup_insert_eq. cbn. unfold counter. lia.
    + rewrite lookup_insert_ne by done. lia.
  - rewrite lookup_insert_ne by done. lia.
  - destruct (decide (p0 = p)) as [->|Hne].
    + rewrite lookup_insert_eq, Hv. cbn. lia.
    + rewrite lookup_insert_ne by done. lia.
Qed.

Lemma run_counter_mono (p : string) (tr : list call) (self : RunLogger) :
  existsb (is_begin_of p) tr = false →
  counter self p ≤ counter (run tr self) p.
Proof.
  revert self. induction tr as [|c tr IH]; intros self Htr; cbn in *.
  - lia.
  - apply orb_false_elim in Htr as [Hc Htr].
    etrans; [by apply perform_counter_mono | by apply IH].
Qed.

(** A call that neither is a begin under [p] nor disturbs [p] leaves the
    counter of [p] as it was. *)
Lemma perform_counter_same (p : string) (c : call) (self : RunLogger) :
  is_begin_under p c = false →
  disturbs p self c = false →
  counter (fst (perform c self)) p = counter self p.
Proof.
  intros Hu Hd. unfold counter.
  destruct c as [r q|r]; cbn [disturbs is_begin_under] in *.
  - rewrite Hu in Hd. cbn [negb andb] in Hd.
    apply bool_decide_eq_false in Hu, Hd.
    rewrite perform_begin. begin_cases r q self; cbn [fst _run_map].
    + rewrite !lookup_insert_ne; [done|congruence|done].
    + by rewrite lookup_insert_ne.
  - apply bool_decide_eq_false in Hd.
    rewrite perform_end. end_cases r self; cbn [fst _run_map]; try done.
    rewrite lookup_insert_ne; [done|congruence].
Qed.

(** A begin under [p] returns the counter of [p] plus one and leaves the
    counter at the value it returned. *)
Lemma begin_under_counter (r : string) (q : option string) (p : string)
    (self : RunLogger) :
  present q = Some p →
  snd (_get_execution_order r q self) = Returned (counter self p + 1) ∧
  counter (fst (_get_execution_order r q self)) p = counter self p + 1.
Proof.
  intros Hq. rewrite (begin_child r q p self Hq). split; [done|].
  unfold counter at 1. cbn [fst _run_map].
  destruct (decide (r = p)) as [->|Hne].
  - by rewrite lookup_insert_eq.
  - by rewrite lookup_insert_ne, lookup_insert_eq.
Qed.

(** Any begin leaves the run's own entry at the value it returned. *)
Lemma begin_own_counter (r : string) (q : option string)
    (self : RunLogger) :
  ∃ n, snd (_get_execution_order r q self) = Returned n ∧
       counter (fst (_get_execution_order r q self)) r = n.
Proof.
  destruct (begin_returns r q self) as (self' & n & -> & Hn).
  exists n. split; [done|]. unfold counter. cbn. by rewrite Hn.
Qed.

(** ** Recorded parent links always point into [_run_map] *)

Lemma is_Some_insert (m : gmap string Z) (i k : string) (x : Z) :
  is_Some (m !! k) → is_Some (<[i := x]> m !! k).
Proof. intros Hk. apply lookup_insert_is_Some'. by right. Qed.

Lemma init_linked : linked __init__.
Proof. intros r p H. cbn in H. by rewrite lookup_empty in H. Qed.

Lemma perform_linked (c : call) (self : RunLogger) :
  linked self → linked (fst (perform c self)).
Proof.
  intros Hl. call_cases c self; intros r' p' H; cbn [_run_map _parents] in *.
  - destruct (decide (r = r')) as [->|Hne].
    + rewrite lookup_insert_eq in H. simplify_eq.
      split; [by eapply present_nonempty|].
      split; [rewrite lookup_insert_eq; eauto|].
      apply is_Some_insert. rewrite lookup_insert_eq; eauto.
    + rewrite lookup_insert_ne in H by done.
      destruct (Hl _ _ H) as (? & ? & ?).
      repeat split; [done|..]; by do 2 apply is_Some_insert.
  - destruct (Hl _ _ H) as (? & ? & ?).
    repeat split; [done|..]; by apply is_Some_insert.
  - apply lookup_delete_Some in H as [_ H].
    destruct (Hl _ _ H) as (? & ? & ?).
    repeat split; [done|..]; by apply is_Some_insert.
  - apply lookup_delete_Some in H as [_ H]. by apply Hl.
  - apply lookup_delete_Some in H as [_ H]. by apply Hl.
  - by apply Hl.
Qed.

Lemma run_linked (tr : list call) (self : RunLogger) :
  linked self → linked (run tr self).
Proof.
  revert self. induction tr as [|c tr IH]; intros self Hl; cbn; [done|].
  by apply IH, perform_linked.
Qed.

Lemma linked_present (self : RunLogger) (r p : string) :
  linked self → _parents self !! r = Some p →
  present (_parents self !! r) = Some p.
Proof.
  intros Hl H. destruct (Hl _ _ H) as (Hp & _ & _).
  rewrite H. by apply present_Some.
Qed.

Lemma perform_keeps_entries (c : call) (self : RunLogger) (k : string) :
  is_Some (_run_map self !! k) →
  is_Some (_run_map (fst (perform c self)) !! k).
Proof.
  intros Hk. call_cases c self; try done;
    repeat apply is_Some_insert; done.
Qed.

Lemma run_keeps_entries (tr : list call) (self : RunLogger) (k : string) :
  is_Some (_run_map self !! k) →
  is_Some (_run_map (run tr self) !! k).
Proof.
  revert self. induction tr as [|c tr IH]; intros self Hk; [done|].
  cbn [run]. by apply IH, perform_keeps_entries.
Qed.

(** A run without a parent link gets one only by a begin of that run. *)
Lemma perform_keeps_unlinked (c : call) (self : RunLogger) (r : string) :
  is_begin_of r c = false →
  _parents self !! r = None →
  _parents (fst (perform c self)) !! r = None.
Proof.
  intros Hc Hr. call_cases c self; cbn in Hc;
    try apply bool_decide_eq_false in Hc; try done.
  - by rewrite lookup_insert_ne.
  - by apply lookup_delete_None; right.
  - by apply lookup_delete_None; right.
  - by apply lookup_delete_None; right.
Qed.

Lemma run_keeps_closed (tr : list call) (self : RunLogger) (r : string) :
  existsb (is_begin_of r) tr = false →
  is_Some (_run_map self !! r) →
  _parents self !! r = None →
  is_Some (_run_map (run tr self) !! r) ∧
  _parents (run tr self) !! r = None.
Proof.
  revert self. induction tr as [|c tr IH]; intros self Htr Hs Hp; [done|].
  cbn [existsb run] in *. apply orb_false_elim in Htr as [Hc Htr].
  apply IH; [done|by apply perform_keeps_entries|].
  by apply perform_keeps_unlinked.
Qed.

(** ** Traces *)

Lemma run_log_cons (c : call) (tr : list call) (self : RunLogger) :
  run_log (c :: tr) self =
    (c, snd (perform c self)) :: run_log tr (fst (perform c self)).
Proof. cbn. by destruct (perform c self). Qed.

Lemma perform_begin_under (r : string) (q : option string) (p : string)
    (self : RunLogger) :
  present q = Some p →
  snd (perform (Begin r q) self) = Returned (VInt (counter self p + 1)) ∧
  counter (fst (perform (Begin r q) self)) p = counter self p + 1.
Proof.
  intros Hq. rewrite perform_begin. cbn [fst snd].
  destruct (begin_under_counter r q p self Hq) as [-> ->]. done.
Qed.

Lemma perform_begin_own (r : string) (q : option string)
    (self : RunLogger) :
  ∃ n, snd (perform (Begin r q) self) = Returned (VInt n) ∧
       counter (fst (perform (Begin r q) self)) r = n.
Proof.
  rewrite perform_begin. cbn [fst snd].
  destruct (begin_own_counter r q self) as (n & -> & Hn). eauto.
Qed.

Lemma last_begin_order_None (r : string) (tr : list call)
    (self : RunLogger) :
  last_begin_order r (run_log tr self) = None →
  existsb (is_begin_of r) tr = false.
Proof.
  revert self. induction tr as [|c tr IH]; intros self; [done|].
  rewrite run_log_cons. cbn [last_begin_order existsb].
  destruct (last_begin_order r (run_log tr _)) eqn:Hl; [done|].
  apply IH in Hl. rewrite Hl, orb_false_r.
  destruct c as [r' q|r']; [|done].
  destruct (perform_begin_own r' q self) as (n & -> & _).
  by destruct (is_begin_of r (Begin r' q)).
Qed.

(** The counter of a run never falls below the order its latest begin
    returned. *)
Lemma last_begin_order_le_counter (r : string) (n : Z) (tr : list call)
    (self : RunLogger) :
  last_begin_order r (run_log tr self) = Some n →
  n ≤ counter (run tr self) r.
Proof.
  revert self. induction tr as [|c tr IH]; intros self; [done|].
  rewrite run_log_cons. cbn [last_begin_order run].
  destruct (last_begin_order r (run_log tr _)) as [n'|] eqn:Hl.
  - intros [= ->]. by apply IH.
  - apply last_begin_order_None in Hl.
    destruct c as [r' q|r'].
    + destruct (perform_begin_own r' q self) as (n' & -> & Hn').
      cbn [is_begin_of]. case_bool_decide as Hr; [|done].
      subst r'. intros [= ->].
      rewrite <- Hn' at 1. by apply run_counter_mono.
    + by destruct (snd (perform (End r') self)) as [[]|].
Qed.

(** * Orders handed to the children of one parent *)

(** C1 as stated does not hold.  The method is first called for a root
    ["A"] and then for two children
    of ["A"]: the children are numbered 2 and 3, because the counter they
    are numbered from is the entry of ["A"] in [_run_map], which already
    holds the order 1 of ["A"] itself. *)
Lemma siblings_of_begun_parent_start_at_two :
  orders_under "A"
    (run_log [Begin "A" None; Begin "B" (Some "A"); Begin "C" (Some "A")]
       __init__) = [2; 3] ∧
  orders_under "A"
    (run_log [Begin "A" None; Begin "B" (Some "A"); Begin "C" (Some "A")]
       __init__) ≠ seqZ 1 2.
Proof. split; [by vm_compute|]. vm_compute. discriminate. Qed.

(** C1 (amended).  The begin calls of a trace that pass the same parent
    [p] return, in call order, the consecutive integers that follow the
    counter [p] had before the trace ([0] when [p] has no entry), whatever
    other calls are interleaved, as long as none of those is a begin of [p]
    itself or the end of a run recorded under [p]. *)
Theorem siblings_numbered_consecutively (p : string) (tr : list call)
    (self : RunLogger) :
  undisturbed p tr self = true →
  orders_under p (run_log tr self) =
    seqZ (counter self p + 1) (Z.of_nat (begins_under p tr)).
Proof.
  revert self. induction tr as [|c tr IH]; intros self Hu; [done|].
  cbn [undisturbed] in Hu. apply andb_true_iff in Hu as [Hd Hu].
  apply negb_true_iff in Hd.
  rewrite run_log_cons. unfold begins_under. cbn [orders_under List.filter].
  specialize (IH _ Hu).
  destruct (is_begin_under p c) eqn:Hc.
  - destruct c as [r q|r]; [|done]. cbn in Hc.
    apply bool_decide_eq_true in Hc.
    destruct (perform_begin_under r q p self Hc) as [Ho Hn].
    rewrite Ho, IH, Hn. cbn [length].
    rewrite (seqZ_cons (counter self p + 1)) by lia.
    do 2 f_equal. unfold begins_under. lia.
  - rewrite (perform_counter_same p c self Hc Hd) in IH.
    by destruct (snd (perform c self)) as [[n|]|e].
Qed.

Lemma siblings_numbered_consecutively_witness :
  let self := run [Begin "A" None] __init__ in
  let tr := [Begin "B" (Some "A"); Begin "X" (Some "B"); End "X";
             Begin "C" (Some "A")] in
  undisturbed "A" tr self = true ∧
  orders_under "A" (run_log tr self) = seqZ (1 + 1) 2.
Proof.
  split; [by vm_compute|].
  apply (siblings_numbered_consecutively "A"
           [Begin "B" (Some "A"); Begin "X" (Some "B"); End "X";
            Begin "C" (Some "A")]
           (run [Begin "A" None] __init__)).
  by vm_compute.
Defined.

(** * A sibling begun later *)

(** C2 as stated does not hold.  ["C"] and ["D"] are begun under ["P"]
    and ["D"] is ended; then ["P"]
    itself is begun, for the first time, which resets its entry to 1; the
    next child ["E"] gets 2, the order ["D"] already has. *)
Lemma begin_of_parent_resets_counter :
  let self := run [Begin "C" (Some "P")] __init__ in
  let self1 := fst (_get_execution_order "D" (Some "P") self) in
  let self2 := run [End "D"; Begin "P" None] self1 in
  snd (_get_execution_order "D" (Some "P") self) = Returned 2 ∧
  snd (_update_execution_order "D" self1) = Returned tt ∧
  snd (_get_execution_order "E" (Some "P") self2) = Returned 2 ∧
  ¬ (∃ n m,
       snd (_get_execution_order "D" (Some "P") self) = Returned n ∧
       snd (_get_execution_order "E" (Some "P") self2) = Returned m ∧
       n < m).
Proof.
  repeat split; try by vm_compute.
  intros (n & m & Hn & Hm & Hlt). vm_compute in Hn, Hm.
  simplify_eq. lia.
Qed.

(** C2 (amended).  A run [child] is begun under [p] and later ended; a
    sibling begun under [p] after that gets a strictly larger order than
    [child] got, provided [p] itself is not begun between the two begin
    calls. *)
Theorem later_sibling_order_larger (self : RunLogger)
    (child sibling p : string) (q q' : option string)
    (mid1 mid2 : list call) :
  present q = Some p →
  present q' = Some p →
  existsb (is_begin_of p) (mid1 ++ End child :: mid2) = false →
  ∃ n m,
    snd (_get_execution_order child q self) = Returned n ∧
    snd (_get_execution_order sibling q'
           (run (mid1 ++ End child :: mid2)
              (fst (_get_execution_order child q self)))) = Returned m ∧
    n < m.
Proof.
  intros Hq Hq' Hmid.
  destruct (begin_under_counter child q p self Hq) as [Hn Hc].
  set (self1 := fst (_get_execution_order child q self)) in *.
  set (self2 := run (mid1 ++ End child :: mid2) self1).
  destruct (begin_under_counter sibling q' p self2 Hq') as [Hm _].
  exists (counter self p + 1), (counter self2 p + 1).
  repeat split; [done..|].
  pose proof (run_counter_mono p _ self1 Hmid). fold self2 in H. lia.
Qed.

Lemma later_sibling_order_larger_witness :
  present (Some "A") = Some "A" ∧
  existsb (is_begin_of "A") ([Begin "C" (Some "A")] ++ End "B" :: []) = false ∧
  ∃ n m,
    snd (_get_execution_order "B" (Some "A") (run [Begin "A" None] __init__))
      = Returned n ∧
    snd (_get_execution_order "D" (Some "A")
           (run ([Begin "C" (Some "A")] ++ End "B" :: [])
              (fst (_get_execution_order "B" (Some "A")
                      (run [Begin "A" None] __init__))))) = Returned m ∧
    n < m.
Proof.
  split; [by vm_compute|]. split; [by vm_compute|].
  apply (later_sibling_order_larger (run [Begin "A" None] __init__)
           "B" "D" "A" (Some "A") (Some "A") [Begin "C" (Some "A")] []);
    by vm_compute.
Defined.

(** * Ending a run with a recorded parent *)

(** C3.  In every state the logger can reach, ending a run [r] that has a
    recorded parent [p] returns normally and sets the entry of [p] to the
    maximum of the stored order of [r] and the current entry of [p]: the
    new entry of [p] is at least the order of [r], no other entry of
    [_run_map] changes, and the link of [r] is dropped. *)
Theorem end_raises_parent_counter (tr : list call) (r p : string) :
  _parents (run tr __init__) !! r = Some p →
  ∃ n v,
    _run_map (run tr __init__) !! r = Some n ∧
    _run_map (run tr __init__) !! p = Some v ∧
    _update_execution_order r (run tr __init__) =
      ({| _run_map := <[p := Z.max n v]> (_run_map (run tr __init__));
          _parents := delete r (_parents (run tr __init__)) |},
       Returned tt) ∧
    n ≤ Z.max n v ∧
    (∀ k, k ≠ p →
       _run_map (fst (_update_execution_order r (run tr __init__))) !! k =
       _run_map (run tr __init__) !! k).
Proof.
  intros Hp. set (self := run tr __init__) in *.
  assert (linked self) as Hl by apply run_linked, init_linked.
  destruct (Hl _ _ Hp) as (_ & [n Hn] & [v Hv]).
  pose proof (linked_present _ _ _ Hl Hp) as Hpres.
  exists n, v. rewrite (end_linked r p n v self Hn Hpres Hv).
  repeat split; [done..|lia|].
  intros k Hk. cbn [fst _run_map]. by rewrite lookup_insert_ne.
Qed.

Lemma end_raises_parent_counter_witness :
  let tr := [Begin "A" None; Begin "B" (Some "A"); Begin "C" (Some "B")] in
  _parents (run tr __init__) !! "B" = Some "A" ∧
  ∃ n v,
    _run_map (run tr __init__) !! "B" = Some n ∧
    _run_map (run tr __init__) !! "A" = Some v ∧
    _update_execution_order "B" (run tr __init__) =
      ({| _run_map := <["A" := Z.max n v]> (_run_map (run tr __init__));
          _parents := delete "B" (_parents (run tr __init__)) |},
       Returned tt) ∧
    n ≤ Z.max n v ∧
    (∀ k, k ≠ "A" →
       _run_map (fst (_update_execution_order "B" (run tr __init__))) !! k =
       _run_map (run tr __init__) !! k).
Proof.
  split; [by vm_compute|].
  apply (end_raises_parent_counter
           [Begin "A" None; Begin "B" (Some "A"); Begin "C" (Some "B")]
           "B" "A").
  by vm_compute.
Defined.

(** * Root runs *)

(** C4.  A begin call without a parent returns 1 and stores 1 for the run,
    whatever the state of the logger. *)
Theorem root_order_is_one (self : RunLogger) (run_id : string) :
  snd (_get_execution_order run_id None self) = Returned 1 ∧
  _run_map (fst (_get_execution_order run_id None self)) !! run_id = Some 1.
Proof.
  rewrite (begin_root run_id None self) by done. split; [done|].
  cbn [fst _run_map]. apply lookup_insert_eq.
Qed.

(** * Begin on an id that was already begun *)

(** C5 as stated does not hold.  ["B"] is begun under ["A"] twice: the second call does not raise, it
    returns 2 and leaves a state that differs from the one it started
    in. *)
Lemma second_begin_succeeds :
  let self := run [Begin "B" (Some "A")] __init__ in
  existsb (is_begin_of "B") [Begin "B" (Some "A")] = true ∧
  snd (_get_execution_order "B" (Some "A") self) = Returned 2 ∧
  fst (_get_execution_order "B" (Some "A") self) ≠ self ∧
  ¬ (∃ e, _get_execution_order "B" (Some "A") self = (self, Raised e)).
Proof.
  split; [by vm_compute|]. split; [by vm_compute|]. split.
  - intros H. apply (f_equal (λ s, _run_map s !! "A")) in H.
    vm_compute in H. discriminate.
  - intros [e H]. vm_compute in H. discriminate.
Qed.

(** C5 (amended).  A begin call on a run id that was begun before does not
    fail: it returns an order computed as for a new id, 1 without a parent
    and the parent's counter plus one with a (non-empty) parent, and stores
    it as the run's order, replacing the one stored before.  With a parent
    it also records that parent as the run's link, replacing an earlier
    one, and sets the parent's counter to the order returned; without a
    parent it leaves [_parents] as it is, so a link an earlier begin
    recorded is kept.  No other entry of either table changes. *)
Theorem repeated_begin_returns (tr : list call) (run_id : string)
    (parent_run_id : option string) :
  existsb (is_begin_of run_id) tr = true →
  ∃ self' n,
    _get_execution_order run_id parent_run_id (run tr __init__) =
      (self', Returned n) ∧
    _run_map self' !! run_id = Some n ∧
    n = match present parent_run_id with
        | Some p => counter (run tr __init__) p + 1
        | None => 1
        end ∧
    (∀ p, present parent_run_id = Some p →
       _parents self' !! run_id = Some p ∧ _run_map self' !! p = Some n) ∧
    (present parent_run_id = None →
       _parents self' = _parents (run tr __init__)) ∧
    (∀ k, k ≠ run_id → present parent_run_id ≠ Some k →
       _run_map self' !! k = _run_map (run tr __init__) !! k) ∧
    (∀ k, k ≠ run_id →
       _parents self' !! k = _parents (run tr __init__) !! k).
Proof.
  intros _. set (self := run tr __init__).
  begin_cases run_id parent_run_id self; eexists _, _;
    (split; [done|]); cbn [_run_map _parents];
    (split; [by rewrite lookup_insert_eq|]); (split; [done|]);
    split_and!; try done.
  - intros p' [= <-]. rewrite lookup_insert_eq. split; [done|].
    destruct (decide (run_id = p)) as [->|Hne].
    + by rewrite lookup_insert_eq.
    + by rewrite lookup_insert_ne, lookup_insert_eq.
  - intros k Hk Hp. rewrite !lookup_insert_ne; [done|congruence|done].
  - intros k Hk. by rewrite lookup_insert_ne.
  - intros k Hk _. by rewrite lookup_insert_ne.
Qed.

Lemma repeated_begin_returns_witness :
  let tr := [Begin "A" None; Begin "B" (Some "A")] in
  existsb (is_begin_of "B") tr = true ∧
  (∃ self' n,
     _get_execution_order "B" (Some "A") (run tr __init__) =
       (self', Returned n) ∧
     _run_map self' !! "B" = Some n ∧
     n = match present (Some "A") with
         | Some p => counter (run tr __init__) p + 1
         | None => 1
         end ∧
     (∀ p, present (Some "A") = Some p →
        _parents self' !! "B" = Some p ∧ _run_map self' !! p = Some n) ∧
     (present (Some "A") = None →
        _parents self' = _parents (run tr __init__)) ∧
     (∀ k, k ≠ "B" → present (Some "A") ≠ Some k →
        _run_map self' !! k = _run_map (run tr __init__) !! k) ∧
     (∀ k, k ≠ "B" →
        _parents self' !! k = _parents (run tr __init__) !! k)) ∧
  (∃ self' n,
     _get_execution_order "B" None (run tr __init__) =
       (self', Returned n) ∧
     _run_map self' !! "B" = Some n ∧
     n = match present None with
         | Some p => counter (run tr __init__) p + 1
         | None => 1
         end ∧
     (∀ p, present None = Some p →
        _parents self' !! "B" = Some p ∧ _run_map self' !! p = Some n) ∧
     (present None = None →
        _parents self' = _parents (run tr __init__)) ∧
     (∀ k, k ≠ "B" → present None ≠ Some k →
        _run_map self' !! k = _run_map (run tr __init__) !! k) ∧
     (∀ k, k ≠ "B" →
        _parents self' !! k = _parents (run tr __init__) !! k)).
Proof.
  split; [by vm_compute|]. split.
  - apply (repeated_begin_returns [Begin "A" None; Begin "B" (Some "A")]
             "B" (Some "A")).
    by vm_compute.
  - apply (repeated_begin_returns [Begin "A" None; Begin "B" (Some "A")]
             "B" None).
    by vm_compute.
Defined.

(** * End on an id the logger does not know *)

Lemma perform_unmentioned (r : string) (c : call) (self : RunLogger) :
  mentions r c = false →
  _run_map self !! r = None →
  _run_map (fst (perform c self)) !! r = None.
Proof.
  unfold mentions. intros Hm Hr. apply orb_false_elim in Hm as [Hb Hu].
  call_cases c self; cbn in Hb, Hu; try done;
    try apply bool_decide_eq_false in Hb;
    try apply bool_decide_eq_false in Hu.
  - rewrite !lookup_insert_ne; [done|congruence|done].
  - by rewrite lookup_insert_ne.
  - rewrite lookup_insert_ne; [done|]. intros ->. congruence.
Qed.

Lemma run_unmentioned (r : string) (tr : list call) (self : RunLogger) :
  existsb (mentions r) tr = false →
  _run_map self !! r = None →
  _run_map (run tr self) !! r = None.
Proof.
  revert self. induction tr as [|c tr IH]; intros self Htr Hr; [done|].
  cbn in *. apply orb_false_elim in Htr as [Hc Htr].
  by apply IH, perform_unmentioned.
Qed.

(** C6 as stated does not hold.  ["A"] is only ever named as the parent
    of ["B"], never begun; ending ["A"] returns normally and changes
    nothing. *)
Lemma end_of_parent_only_id_succeeds :
  let tr := [Begin "B" (Some "A")] in
  existsb (is_begin_of "A") tr = false ∧
  _update_execution_order "A" (run tr __init__) =
    (run tr __init__, Returned tt) ∧
  ¬ (∃ e, snd (_update_execution_order "A" (run tr __init__)) = Raised e).
Proof.
  split; [by vm_compute|]. split; [by vm_compute|].
  intros [e H]. vm_compute in H. discriminate.
Qed.

(** C6 (amended).  Ending a run id that no earlier call named, neither as
    the run begun nor as a parent, raises [KeyError] and leaves the state
    as it was. *)
Theorem end_of_unknown_id_raises (tr : list call) (run_id : string) :
  existsb (mentions run_id) tr = false →
  _update_execution_order run_id (run tr __init__) =
    (run tr __init__, Raised (KeyError run_id)).
Proof.
  intros Htr. apply end_unknown, run_unmentioned; [done|].
  apply lookup_empty.
Qed.

Lemma end_of_unknown_id_raises_witness :
  existsb (mentions "Z") [Begin "A" None; Begin "B" (Some "A")] = false ∧
  _update_execution_order "Z"
    (run [Begin "A" None; Begin "B" (Some "A")] __init__) =
    (run [Begin "A" None; Begin "B" (Some "A")] __init__,
     Raised (KeyError "Z")).
Proof.
  split; [by vm_compute|].
  apply (end_of_unknown_id_raises [Begin "A" None; Begin "B" (Some "A")] "Z").
  by vm_compute.
Defined.

(** * End called twice *)

(** C7 as stated does not hold.  ["B"] is ended twice: the second call
    returns normally. *)
Lemma second_end_succeeds :
  let self := run [Begin "A" None; Begin "B" (Some "A")] __init__ in
  let self1 := fst (_update_execution_order "B" self) in
  snd (_update_execution_order "B" self) = Returned tt ∧
  snd (_update_execution_order "B" self1) = Returned tt ∧
  ¬ (∃ e, snd (_update_execution_order "B" self1) = Raised e).
Proof.
  split; [by vm_compute|]. split; [by vm_compute|].
  intros [e H]. vm_compute in H. discriminate.
Qed.

(** C7 (amended).  When end has succeeded on a run id, every later end
    call on that id returns normally too and leaves both tables as it
    finds them, whatever is called in between, provided the id is not
    begun again in between: the method keeps no record of closed runs. *)
Theorem later_end_is_silent (self self' : RunLogger) (run_id : string)
    (mid : list call) :
  _update_execution_order run_id self = (self', Returned tt) →
  existsb (is_begin_of run_id) mid = false →
  _update_execution_order run_id (run mid self') =
    (run mid self', Returned tt).
Proof.
  intros H Hmid.
  assert (is_Some (_run_map self' !! run_id) ∧
          _parents self' !! run_id = None) as [Hs Hp].
  { end_cases run_id self; simplify_eq; cbn [_run_map _parents].
    - split; [apply is_Some_insert; eauto|apply lookup_delete_eq].
    - split; [eauto|apply lookup_delete_eq]. }
  destruct (run_keeps_closed mid self' run_id Hmid Hs Hp) as [[n Hn] Hp'].
  rewrite (end_unlinked run_id n _ Hn) by by rewrite Hp'.
  rewrite delete_id by done. by destruct (run mid self').
Qed.

Lemma later_end_is_silent_witness :
  let self := run [Begin "A" None; Begin "B" (Some "A")] __init__ in
  let self' := fst (_update_execution_order "B" self) in
  let mid := [Begin "C" (Some "A"); End "B"; Begin "D" (Some "B")] in
  _update_execution_order "B" self = (self', Returned tt) ∧
  existsb (is_begin_of "B") mid = false ∧
  _update_execution_order "B" (run mid self') =
    (run mid self', Returned tt).
Proof.
  split; [by vm_compute|]. split; [by vm_compute|].
  apply (later_end_is_silent
           (run [Begin "A" None; Begin "B" (Some "A")] __init__)
           (fst (_update_execution_order "B"
                   (run [Begin "A" None; Begin "B" (Some "A")] __init__)))
           "B" [Begin "C" (Some "A"); End "B"; Begin "D" (Some "B")]);
    by vm_compute.
Defined.

(** * End on a run without a recorded parent *)

(** C8.  Ending a run id that has an entry in [_run_map] and none in
    [_parents] returns without raising and leaves both tables as they
    were. *)
Theorem end_without_parent_is_noop (self : RunLogger) (run_id : string)
    (n : Z) :
  _run_map self !! run_id = Some n →
  _parents self !! run_id = None →
  _update_execution_order run_id self = (self, Returned tt).
Proof.
  intros Hn Hp. rewrite (end_unlinked run_id n self Hn) by by rewrite Hp.
  rewrite delete_id by done. by destruct self.
Qed.

Lemma end_without_parent_is_noop_witness :
  _run_map (run [Begin "A" None; Begin "B" (Some "A")] __init__) !! "A"
    = Some 2 ∧
  _parents (run [Begin "A" None; Begin "B" (Some "A")] __init__) !! "A"
    = None ∧
  _update_execution_order "A"
    (run [Begin "A" None; Begin "B" (Some "A")] __init__) =
    (run [Begin "A" None; Begin "B" (Some "A")] __init__, Returned tt).
Proof.
  split; [by vm_compute|]. split; [by vm_compute|].
  apply (end_without_parent_is_noop
           (run [Begin "A" None; Begin "B" (Some "A")] __init__) "A" 2);
    by vm_compute.
Defined.

(** * Entries a call leaves alone *)

(** C9.  A begin or end call writes at most two entries of [_run_map], the
    run's own and its direct parent's; the entry of every other run id is
    the same before and after the call. *)
Theorem call_leaves_other_entries (c : call) (self : RunLogger)
    (k : string) :
  k ∉ touched c self →
  (length (touched c self) ≤ 2)%nat ∧
  _run_map (fst (perform c self)) !! k = _run_map self !! k.
Proof.
  intros Hk. split.
  { destruct c as [r q|r]; cbn [touched length];
      by destruct (present _); cbn; lia. }
  revert Hk. unfold touched.
  call_cases c self; cbn [option_list]; intros Hk; try done.
  - apply not_elem_of_cons in Hk as [Hkr Hk].
    apply not_elem_of_cons in Hk as [Hkp _].
    by rewrite !lookup_insert_ne.
  - apply not_elem_of_cons in Hk as [Hkr _]. by rewrite lookup_insert_ne.
  - apply not_elem_of_cons in Hk as [_ Hk].
    apply not_elem_of_cons in Hk as [Hkp _]. by rewrite lookup_insert_ne.
Qed.

Lemma call_leaves_other_entries_witness :
  let self := run [Begin "A" None; Begin "B" (Some "A");
                   Begin "C" (Some "A")] __init__ in
  ("C" ∉ touched (Begin "D" (Some "B")) self) ∧
  (length (touched (Begin "D" (Some "B")) self) ≤ 2)%nat ∧
  (_run_map (fst (perform (Begin "D" (Some "B")) self)) !! "C" =
   _run_map self !! "C").
Proof.
  split; [apply (bool_decide_eq_false_1 _); by vm_compute|].
  apply (call_leaves_other_entries (Begin "D" (Some "B"))
           (run [Begin "A" None; Begin "B" (Some "A");
                 Begin "C" (Some "A")] __init__) "C").
  apply (bool_decide_eq_false_1 _). by vm_compute.
Defined.

(** * Parent and child *)

(** C10.  When [parent] was begun before and its latest begin returned
    [n], a begin call that passes [parent] as its parent returns the
    current entry of [parent] plus one, and that is strictly greater than
    [n]: the entry of [parent] starts at [n] and is only raised afterwards.
    So the orders grow strictly from every run to its children. *)
Theorem child_order_exceeds_parent_order (self : RunLogger)
    (tr : list call) (parent child : string) (q : option string) (n : Z) :
  present q = Some parent →
  last_begin_order parent (run_log tr self) = Some n →
  ∃ m,
    snd (_get_execution_order child q (run tr self)) = Returned m ∧
    m = counter (run tr self) parent + 1 ∧
    n < m.
Proof.
  intros Hq Hn.
  destruct (begin_under_counter child q parent (run tr self) Hq) as [Hm _].
  exists (counter (run tr self) parent + 1). repeat split; [done|].
  pose proof (last_begin_order_le_counter _ _ _ _ Hn). lia.
Qed.

Lemma child_order_exceeds_parent_order_witness :
  present (Some "B") = Some "B" ∧
  last_begin_order "B"
    (run_log [Begin "A" None; Begin "B" (Some "A"); Begin "C" (Some "A")]
       __init__) = Some 2 ∧
  ∃ m,
    snd (_get_execution_order "D" (Some "B")
           (run [Begin "A" None; Begin "B" (Some "A");
                 Begin "C" (Some "A")] __init__)) = Returned m ∧
    m = counter (run [Begin "A" None; Begin "B" (Some "A");
                      Begin "C" (Some "A")] __init__) "B" + 1 ∧
    2 < m.
Proof.
  split; [by vm_compute|]. split; [by vm_compute|].
  apply (child_order_exceeds_parent_order __init__
           [Begin "A" None; Begin "B" (Some "A"); Begin "C" (Some "A")]
           "B" "D" (Some "B") 2);
    by vm_compute.
Defined.

(** * Further properties of the two methods *)

(** ** What the tables hold after a trace *)

(** X1.  [_run_map] never forgets a run id: an entry that exists stays in
    the table, with some order, through any sequence of calls; neither
    method deletes from it. *)
Theorem run_map_entries_persist (tr : list call) (self : RunLogger)
    (k : string) :
  is_Some (_run_map self !! k) →
  is_Some (_run_map (run tr self) !! k).
Proof.
  revert self. induction tr as [|c tr IH]; intros self Hk; [done|].
  cbn [run]. apply IH. destruct Hk as [v Hv].
  call_cases c self; try (by eexists);
    repeat apply is_Some_insert; by eexists.
Qed.

Lemma run_map_entries_persist_witness :
  is_Some (_run_map (run [Begin "A" None] __init__) !! "A") ∧
  is_Some (_run_map (run [Begin "B" (Some "A"); End "B"; End "A"]
                       (run [Begin "A" None] __init__)) !! "A").
Proof.
  split; [vm_compute; eauto|].
  apply (run_map_entries_persist [Begin "B" (Some "A"); End "B"; End "A"]
           (run [Begin "A" None] __init__) "A").
  vm_compute. eauto.
Defined.

Lemma perform_mentioned (c : call) (self : RunLogger) (k : string) :
  mentions k c = true →
  is_Some (_run_map (fst (perform c self)) !! k).
Proof.
  unfold mentions. intros Hm. apply orb_true_iff in Hm.
  destruct c as [r q|r]; cbn in Hm; [|by destruct Hm].
  rewrite perform_begin. begin_cases r q self; cbn [fst _run_map].
  - destruct Hm as [Hm|Hm]; apply bool_decide_eq_true in Hm.
    + subst. rewrite lookup_insert_eq. eauto.
    + simplify_eq. apply is_Some_insert. rewrite lookup_insert_eq. eauto.
  - destruct Hm as [Hm|Hm]; apply bool_decide_eq_true in Hm; [|done].
    subst. rewrite lookup_insert_eq. eauto.
Qed.

(** X2.  After any sequence of calls on a new logger, the ids that have
    an entry in [_run_map] are exactly those some begin call named, as its
    run id or as its (non-empty) parent. *)
Theorem run_map_holds_mentioned_ids (tr : list call) (k : string) :
  is_Some (_run_map (run tr __init__) !! k) ↔
  existsb (mentions k) tr = true.
Proof.
  split.
  - intros Hk. destruct (existsb (mentions k) tr) eqn:Htr; [done|].
    rewrite (run_unmentioned k tr __init__ Htr) in Hk by apply lookup_empty.
    by destruct Hk.
  - generalize __init__. induction tr as [|c tr IH]; intros self Htr;
      [done|].
    cbn [existsb run] in *. apply orb_true_iff in Htr as [Hc|Htr].
    + by apply run_keeps_entries, perform_mentioned.
    + by apply IH.
Qed.

Lemma perform_open_link (c : call) (self : RunLogger) (r : string) :
  linked self →
  _parents (fst (perform c self)) !! r =
  open_link r [c] (_parents self !! r).
Proof.
  intros Hl. cbn [open_link].
  assert (_run_map self !! r = None → _parents self !! r = None) as Hnone.
  { intros Hnr. destruct (_parents self !! r) as [p'|] eqn:Hp'; [|done].
    destruct (Hl _ _ Hp') as (_ & [n' Hn'] & _). congruence. }
  call_cases c self; case_bool_decide as Heq; subst;
    rewrite ?lookup_insert_eq, ?lookup_insert_ne, ?lookup_delete_eq,
      ?lookup_delete_ne by done; try done.
  by rewrite Hnone.
Qed.

Lemma open_link_cons (r : string) (c : call) (tr : list call)
    (link : option string) :
  open_link r (c :: tr) link = open_link r tr (open_link r [c] link).
Proof.
  destruct c as [r' q|r']; cbn [open_link]; case_bool_decide; try done.
  by destruct (present q).
Qed.

(** X3.  After any sequence of calls on a new logger, the parent recorded
    for [r] in [_parents] is the one passed by the latest begin of [r]
    that took the parent branch, unless an end of [r] came after it; then,
    and when there was no such begin, [r] has no recorded parent. *)
Theorem parents_holds_open_links (tr : list call) (r : string) :
  _parents (run tr __init__) !! r = open_link r tr None.
Proof.
  change None with (_parents __init__ !! r) at 1.
  assert (linked __init__) as Hl by apply init_linked.
  revert Hl. generalize __init__.
  induction tr as [|c tr IH]; intros self Hl; [done|].
  rewrite open_link_cons. cbn [run].
  rewrite IH by by apply perform_linked.
  by rewrite perform_open_link.
Qed.

(** ** When end raises *)


(** X4.  In every state a new logger can reach, end raises only for a run
    id that has no entry in [_run_map], and then it is the [KeyError] of
    that id; for an id with an entry it returns normally.  The subscript on
    the recorded parent never fails. *)
Theorem end_raises_only_for_missing_entry (tr : list call)
    (run_id : string) :
  snd (_update_execution_order run_id (run tr __init__)) =
    match _run_map (run tr __init__) !! run_id with
    | Some _ => Returned tt
    | None => Raised (KeyError run_id)
    end.
Proof.
  pose proof (run_linked tr __init__ init_linked) as Hl.
  destruct (_run_map (run tr __init__) !! run_id) as [n|] eqn:Hn.
  - destruct (_parents (run tr __init__) !! run_id) as [p|] eqn:Hp.
    + destruct (Hl _ _ Hp) as (_ & _ & [v Hv]).
      by rewrite (end_linked run_id p n v _ Hn
                    (linked_present _ _ _ Hl Hp) Hv).
    + by rewrite (end_unlinked run_id n _ Hn) by by rewrite Hp.
  - by rewrite end_unknown.
Qed.

(** ** Orders are positive *)

Lemma init_orders_positive : orders_positive __init__.
Proof. intros k v H. cbn in H. by rewrite lookup_empty in H. Qed.

Lemma counter_nonneg (self : RunLogger) (p : string) :
  orders_positive self → 0 ≤ counter self p.
Proof.
  intros Hpos. unfold counter.
  destruct (_run_map self !! p) as [v|] eqn:Hv; cbn; [|lia].
  specialize (Hpos _ _ Hv). lia.
Qed.

Lemma perform_orders_positive (c : call) (self : RunLogger) :
  orders_positive self → orders_positive (fst (perform c self)).
Proof.
  intros Hpos. pose proof (counter_nonneg self) as Hc.
  call_cases c self; try done; intros k x Hk; cbn [_run_map] in Hk.
  - specialize (Hc p Hpos).
    apply lookup_insert_Some in Hk as [[_ <-]|[_ Hk]]; [lia|].
    apply lookup_insert_Some in Hk as [[_ <-]|[_ Hk]]; [lia|].
    by eapply Hpos.
  - apply lookup_insert_Some in Hk as [[_ <-]|[_ Hk]]; [lia|].
    by eapply Hpos.
  - apply lookup_insert_Some in Hk as [[_ <-]|[_ Hk]]; [|by eapply Hpos].
    specialize (Hpos _ _ Hr). lia.
Qed.

Lemma run_orders_positive (tr : list call) (self : RunLogger) :
  orders_positive self → orders_positive (run tr self).
Proof.
  revert self. induction tr as [|c tr IH]; intros self Hpos; [done|].
  cbn [run]. by apply IH, perform_orders_positive.
Qed.

(** X5.  On a logger that started empty, every begin call returns an
    order of at least 1, and every order stored in [_run_map] is at least
    1. *)
Theorem orders_are_positive (tr : list call) (run_id : string)
    (parent_run_id : option string) :
  orders_positive (run tr __init__) ∧
  ∃ n, snd (_get_execution_order run_id parent_run_id (run tr __init__)) =
         Returned n ∧ 1 ≤ n.
Proof.
  assert (orders_positive (run tr __init__)) as Hpos
    by apply run_orders_positive, init_orders_positive.
  split; [done|]. set (self := run tr __init__) in *.
  begin_cases run_id parent_run_id self; eexists; (split; [done|]);
    [|lia].
  pose proof (counter_nonneg self p Hpos). lia.
Qed.

(** ** Begin followed by end *)

(** X6.  Ending a run directly after beginning it, when it had no parent
    link before, returns normally, leaves [_run_map] as the begin call
    left it and puts [_parents] back to what it was before the begin. *)
Theorem end_after_begin (self : RunLogger) (run_id : string)
    (parent_run_id : option string) :
  _parents self !! run_id = None →
  _update_execution_order run_id
    (fst (_get_execution_order run_id parent_run_id self)) =
    ({| _run_map :=
          _run_map (fst (_get_execution_order run_id parent_run_id self));
        _parents := _parents self |}, Returned tt).
Proof.
  intros Hr. begin_cases run_id parent_run_id self; cbn [fst].
  - set (n := counter self p + 1).
    rewrite (end_linked run_id p n n); cbn [_run_map _parents].
    + rewrite delete_insert_eq, delete_id by done.
      rewrite Z.max_id. f_equal. f_equal.
      apply insert_id.
      destruct (decide (run_id = p)) as [->|Hne].
      * by rewrite lookup_insert_eq.
      * by rewrite lookup_insert_ne, lookup_insert_eq.
    + by rewrite lookup_insert_eq.
    + rewrite lookup_insert_eq. apply present_Some.
      split; [done|by eapply present_nonempty].
    + destruct (decide (run_id = p)) as [->|Hne].
      * by rewrite lookup_insert_eq.
      * by rewrite lookup_insert_ne, lookup_insert_eq.
  - rewrite (end_unlinked run_id 1); cbn [_run_map _parents].
    + by rewrite delete_id.
    + by rewrite lookup_insert_eq.
    + by rewrite Hr.
Qed.

Lemma end_after_begin_witness :
  let self := run [Begin "A" None] __init__ in
  _parents self !! "B" = None ∧
  _update_execution_order "B"
    (fst (_get_execution_order "B" (Some "A") self)) =
    ({| _run_map :=
          _run_map (fst (_get_execution_order "B" (Some "A") self));
        _parents := _parents self |}, Returned tt).
Proof.
  split; [by vm_compute|].
  apply (end_after_begin (run [Begin "A" None] __init__) "B" (Some "A")).
  by vm_compute.
Defined.

(** ** Orders of siblings never repeat *)

Lemma sibling_orders_above_counter (p : string) (tr : list call)
    (self : RunLogger) :
  existsb (is_begin_of p) tr = false →
  StronglySorted Z.lt (orders_under p (run_log tr self)) ∧
  Forall (λ n, counter self p < n) (orders_under p (run_log tr self)).
Proof.
  revert self. induction tr as [|c tr IH]; intros self Htr.
  { split; constructor. }
  cbn [existsb] in Htr. apply orb_false_elim in Htr as [Hc Htr].
  rewrite run_log_cons. cbn [orders_under].
  destruct (IH (fst (perform c self)) Htr) as [Hs Hf].
  pose proof (perform_counter_mono p c self Hc) as Hmono.
  assert (Forall (λ n, counter self p < n)
            (orders_under p (run_log tr (fst (perform c self))))) as Hf'.
  { eapply Forall_impl; [exact Hf|]. cbn. intros. lia. }
  destruct (is_begin_under p c) eqn:Hu.
  - destruct c as [r q|r]; [|done]. cbn in Hu.
    apply bool_decide_eq_true in Hu.
    destruct (perform_begin_under r q p self Hu) as [Ho Hn].
    rewrite Ho. rewrite Hn in Hf. split.
    + by constructor.
    + constructor; [lia|done].
  - by destruct (snd (perform c self)) as [[n|]|e].
Qed.

(** X7.  As long as [p] itself is not begun, the orders handed to the
    runs begun under [p] are strictly increasing in call order, whatever
    else is called in between; no two children of [p] get the same
    order. *)
Theorem sibling_orders_strictly_increase (p : string) (tr : list call)
    (self : RunLogger) :
  existsb (is_begin_of p) tr = false →
  StronglySorted Z.lt (orders_under p (run_log tr self)) ∧
  NoDup (orders_under p (run_log tr self)).
Proof.
  intros Htr.
  destruct (sibling_orders_above_counter p tr self Htr) as [Hs _].
  split; [done|].
  induction Hs as [|n l Hs IH Hn]; constructor; [|done].
  intros Hin. rewrite Forall_forall in Hn. specialize (Hn _ Hin). lia.
Qed.

Lemma sibling_orders_strictly_increase_witness :
  let self := run [Begin "A" None] __init__ in
  let tr := [Begin "B" (Some "A"); Begin "X" (Some "B"); End "X"; End "B";
             Begin "C" (Some "A")] in
  existsb (is_begin_of "A") tr = false ∧
  orders_under "A" (run_log tr self) = [2; 4] ∧
  StronglySorted Z.lt (orders_under "A" (run_log tr self)) ∧
  NoDup (orders_under "A" (run_log tr self)).
Proof.
  split; [by vm_compute|]. split; [by vm_compute|].
  apply (sibling_orders_strictly_increase "A"
           [Begin "B" (Some "A"); Begin "X" (Some "B"); End "X"; End "B";
            Begin "C" (Some "A")]
           (run [Begin "A" None] __init__)).
  by vm_compute.
Defined.

(** * The callers *)

Section CallerProperties.
Context `{Python}.

(** ** [post_run] and [patch_run], one equation per path *)

Lemma post_run_eq (data : json) (name run_id : string)
    (parent_run_id : option string) (w : World) :
  ∃ n,
    snd (_get_execution_order run_id parent_run_id (logger w)) =
      Returned n ∧
    post_run data name run_id parent_run_id w =
      ({| logger :=
            fst (_get_execution_order run_id parent_run_id (logger w));
          sent := sent w ++
            [POST "https://api.smith.langchain.com/runs"
               {| post_id := run_id;
                  post_name := name;
                  post_run_type := "chain";
                  post_parent_run_id := parent_run_id;
                  post_execution_order := n;
                  post_inputs := data;
                  post_start_time := utcnow (clock w);
                  post_session_name := _LANGSMITH_PROJECT |}
               _LANGSMITH_API_KEY];
          clock := S (clock w);
          drawn := drawn w |}, Normal tt).
Proof.
  destruct (begin_returns run_id parent_run_id (logger w))
    as (self' & n & Hb & _).
  exists n. unfold post_run, wbind, on_logger. rewrite Hb. done.
Qed.

Lemma patch_run_returned (run_id : string) (output : option json)
    (error : option string) (w : World) (self' : RunLogger) :
  _update_execution_order run_id (logger w) = (self', Returned tt) →
  patch_run run_id output error w =
    ({| logger := self';
        sent := sent w ++
          [PATCH ("https://api.smith.langchain.com/runs/" +:+ run_id)
             {| patch_error := error;
                patch_outputs := output;
                patch_end_time := utcnow (clock w) |}
             _LANGSMITH_API_KEY];
        clock := S (clock w);
        drawn := drawn w |}, Normal tt).
Proof. intros He. unfold patch_run, wbind, on_logger. by rewrite He. Qed.

Lemma patch_run_raised (run_id : string) (output : option json)
    (error : option string) (w : World) (self' : RunLogger) (e : exn) :
  _update_execution_order run_id (logger w) = (self', Raised e) →
  patch_run run_id output error w =
    ({| logger := self'; sent := sent w; clock := clock w;
        drawn := drawn w |}, Throw (Key e)).
Proof. intros He. unfold patch_run, wbind, on_logger. by rewrite He. Qed.

(** X8.  [patch_run] on a run id that has no entry in [_run_map] raises
    the [KeyError] of the bookkeeping before anything is sent: no PATCH
    goes out, the clock is not read and the logger is unchanged. *)
Theorem patch_run_unknown_sends_nothing (run_id : string)
    (output : option json) (error : option string) (w : World) :
  _run_map (logger w) !! run_id = None →
  patch_run run_id output error w = (w, Throw (Key (KeyError run_id))).
Proof.
  intros Hr. rewrite (patch_run_raised _ _ _ w (logger w) (KeyError run_id))
    by by apply end_unknown.
  by destruct w.
Qed.

(** X9.  [post_run] never raises.  It sends exactly one request, a POST
    whose [id] and [parent_run_id] are the arguments as passed and whose
    [execution_order] is the order the logger now stores for the run. *)
Theorem post_run_sends_stored_order (data : json) (name run_id : string)
    (parent_run_id : option string) (w : World) :
  ∃ w' url body key,
    post_run data name run_id parent_run_id w = (w', Normal tt) ∧
    sent w' = (sent w ++ [POST url body key])%list ∧
    post_id body = run_id ∧
    post_parent_run_id body = parent_run_id ∧
    _run_map (logger w') !! run_id = Some (post_execution_order body).
Proof.
  destruct (post_run_eq data name run_id parent_run_id w) as (n & Hn & ->).
  eexists _, _, _, _. split; [done|]. cbn.
  repeat split.
  destruct (begin_returns run_id parent_run_id (logger w))
    as (self' & n' & Hb & Hs).
  rewrite Hb in *. cbn in *. by simplify_eq.
Qed.


(** ** Bookkeeping around a subtree of runs *)

Lemma present_present (q : option string) : present (present q) = present q.
Proof. by destruct q as [[|a s]|]. Qed.

Lemma begin_frame (r : string) (q : option string) (self : RunLogger) :
  snd (_get_execution_order r q self) = Returned (order_base q self + 1) ∧
  _run_map (fst (_get_execution_order r q self)) !! r =
    Some (order_base q self + 1) ∧
  (∀ p, present q = Some p →
     _run_map (fst (_get_execution_order r q self)) !! p =
       Some (order_base q self + 1)) ∧
  (∀ k, k ≠ r → present q ≠ Some k →
     _run_map (fst (_get_execution_order r q self)) !! k =
       _run_map self !! k) ∧
  _parents (fst (_get_execution_order r q self)) =
    match present q with
    | Some p => <[r := p]> (_parents self)
    | None => _parents self
    end.
Proof.
  unfold order_base.
  begin_cases r q self; cbn [fst snd _run_map _parents];
    (split; [done|]); (split; [by rewrite lookup_insert_eq|]);
    (split; [|split; [|done]]).
  - intros p' [= <-]. destruct (decide (r = p)) as [->|Hne].
    + by rewrite lookup_insert_eq.
    + by rewrite lookup_insert_ne, lookup_insert_eq.
  - intros k Hk Hp. rewrite !lookup_insert_ne; [done|congruence|done].
  - done.
  - intros k Hk _. by rewrite lookup_insert_ne.
Qed.

Lemma end_frame (r : string) (q : option string) (self : RunLogger)
    (m : Z) :
  _run_map self !! r = Some m →
  _parents self !! r = present q →
  (∀ p, present q = Some p →
     ∃ v, _run_map self !! p = Some v ∧ v ≤ m) →
  _update_execution_order r self =
    ({| _run_map :=
          match present q with
          | Some p => <[p := m]> (_run_map self)
          | None => _run_map self
          end;
        _parents := delete r (_parents self) |}, Returned tt).
Proof.
  intros Hr Hp Hv.
  assert (present (_parents self !! r) = present q) as Hpp
    by by rewrite Hp, present_present.
  destruct (present q) as [p|] eqn:Hq.
  - destruct (Hv p eq_refl) as (v & Hpv & Hle).
    rewrite (end_linked r p m v self Hr Hpp Hpv).
    by rewrite Z.max_l.
  - by rewrite (end_unlinked r m self Hr Hpp).
Qed.

(** ** Requests of two stretches *)

Lemma post_orders_app (a b : list request) :
  post_orders (a ++ b) = (post_orders a ++ post_orders b)%list.
Proof.
  induction a as [|[]]; cbn [post_orders app]; [done|by f_equal|done].
Qed.

Lemma posted_ids_app (a b : list request) :
  posted_ids (a ++ b) = (posted_ids a ++ posted_ids b)%list.
Proof.
  induction a as [|[]]; cbn [posted_ids app]; [done|by f_equal|done].
Qed.

Lemma patched_urls_app (a b : list request) :
  patched_urls (a ++ b) = (patched_urls a ++ patched_urls b)%list.
Proof.
  induction a as [|[]]; cbn [patched_urls app]; [done|done|by f_equal].
Qed.

Lemma patch_errors_app (a b : list request) :
  patch_errors (a ++ b) = (patch_errors a ++ patch_errors b)%list.
Proof.
  induction a as [|[]]; cbn [patch_errors app]; [done|done|by f_equal].
Qed.

(** ** The recursion of [fibonacci] *)

Lemma fibonacci_value_step (n : Z) :
  2 ≤ n →
  fibonacci_value n = fibonacci_value (n - 1) + fibonacci_value (n - 2).
Proof.
  intros Hn. unfold fibonacci_value.
  replace (Z.to_nat n) with (S (S (Z.to_nat (n - 2)))) by lia.
  replace (Z.to_nat (n - 1)) with (S (Z.to_nat (n - 2))) by lia.
  repeat case_decide; try lia.
  - replace (Z.to_nat (n - 2)) with 0%nat by lia. cbn. lia.
  - replace (Z.to_nat (n - 2)) with 1%nat by lia. cbn. lia.
  - done.
Qed.

Lemma invocations_step (n : Z) :
  2 ≤ n →
  invocations (Z.to_nat n) =
    S (invocations (Z.to_nat (n - 1)) + invocations (Z.to_nat (n - 2))).
Proof.
  intros Hn.
  replace (Z.to_nat n) with (S (S (Z.to_nat (n - 2)))) by lia.
  replace (Z.to_nat (n - 1)) with (S (Z.to_nat (n - 2))) by lia.
  done.
Qed.

Lemma invocations_base (n : Z) : n ≤ 1 → invocations (Z.to_nat n) = 1%nat.
Proof.
  intros Hn. destruct (decide (n = 1)) as [->|]; [done|].
  by replace (Z.to_nat n) with 0%nat by lia.
Qed.

(** ** Runs begun one after the other under one parent *)

Hypothesis uuid4_inj : ∀ i j, uuid4 i = uuid4 j → i = j.
Hypothesis uuid4_nonempty : ∀ i, uuid4 i ≠ EmptyString.

Lemma present_uuid4 (i : nat) : present (Some (uuid4 i)) = Some (uuid4 i).
Proof. by apply present_Some. Qed.

Lemma ready_fresh_entry (q : option string) (w : World) (k : nat) :
  ready q w → (drawn w ≤ k)%nat → present q ≠ Some (uuid4 k).
Proof.
  intros (_ & Hf & Hq) Hk Hp. destruct (Hq _ Hp) as [v Hv].
  destruct (Hf k Hk) as [Hnone _]. congruence.
Qed.

Lemma effect_keeps_entries (q : option string) (count : nat)
    (w w' : World) (reqs : list request) (k : string) :
  subtree_effect q count w w' reqs →
  is_Some (_run_map (logger w) !! k) →
  is_Some (_run_map (logger w') !! k).
Proof.
  intros (_ & _ & _ & Hp & Hk & _) Hs.
  destruct (decide (present q = Some k)) as [Hq|Hq].
  - rewrite (Hp _ Hq). eauto.
  - by rewrite (Hk _ Hq Hs).
Qed.

Lemma effect_ready (q : option string) (count : nat) (w w' : World)
    (reqs : list request) :
  ready q w → subtree_effect q count w w' reqs → ready q w'.
Proof.
  intros Hr He. pose proof (λ k, effect_keeps_entries _ _ _ _ _ k He) as Hkeep.
  destruct Hr as (Hl & Hf & Hq).
  destruct He as (Hd & _ & Hpar & Hp & _ & Hnew & _).
  split_and!.
  - intros r p Hrp. rewrite Hpar in Hrp.
    destruct (Hl _ _ Hrp) as (? & ? & ?). auto.
  - intros k Hk. split.
    + destruct (_run_map (logger w') !! uuid4 k) as [v|] eqn:Hv; [|done].
      destruct (Hnew (uuid4 k)) as [[v' Hv']|(j & Hj & Heq)];
        [by eauto|..].
      * destruct (Hf k) as [Hnone _]; [lia|congruence].
      * apply uuid4_inj in Heq. lia.
    + rewrite Hpar. apply Hf. lia.
  - intros p Hqp. rewrite (Hp _ Hqp). eauto.
Qed.

Lemma effect_none (q : option string) (w : World) :
  ready q w → subtree_effect q 0 w w [].
Proof.
  intros (_ & _ & Hq). unfold subtree_effect.
  rewrite Nat.add_0_r, app_nil_r. split_and!; try done.
  - intros p Hp. destruct (Hq _ Hp) as [v Hv]. unfold counter.
    rewrite Hv. cbn. f_equal. lia.
  - intros k Hk. by left.
Qed.

Lemma effect_then (p : string) (c1 c2 : nat) (w1 w2 w3 : World)
    (reqs1 reqs2 : list request) :
  p ≠ EmptyString →
  subtree_effect (Some p) c1 w1 w2 reqs1 →
  subtree_effect (Some p) c2 w2 w3 reqs2 →
  subtree_effect (Some p) (c1 + c2) w1 w3 (reqs1 ++ reqs2).
Proof.
  intros Hne He1 He2.
  assert (present (Some p) = Some p) as Hpp by by apply present_Some.
  pose proof (λ k, effect_keeps_entries _ _ _ _ _ k He1) as Hkeep.
  destruct He1 as (Hd1 & Hs1 & Hpar1 & Hp1 & Hk1 & Hn1 & Ho1 & Hi1 & Hu1 & Hx1).
  destruct He2 as (Hd2 & Hs2 & Hpar2 & Hp2 & Hk2 & Hn2 & Ho2 & Hi2 & Hu2 & Hx2).
  assert (counter (logger w2) p = counter (logger w1) p + Z.of_nat c1) as Hc.
  { unfold counter at 1. by rewrite (Hp1 _ Hpp). }
  unfold subtree_effect, order_base in *. rewrite Hpp in *.
  split_and!.
  - lia.
  - by rewrite Hs2, Hs1, app_assoc.
  - congruence.
  - intros p' Hp'. rewrite (Hp2 _ Hp'). simplify_eq. f_equal. lia.
  - intros k Hk Hs. rewrite Hk2, Hk1; auto.
  - intros k Hs. destruct (Hn2 _ Hs) as [Hs2'|(j & Hj & ->)].
    + destruct (Hn1 _ Hs2') as [?|(j & Hj & ->)]; [by left|].
      right. exists j. split; [lia|done].
    + right. exists j. split; [lia|done].
  - rewrite post_orders_app, Ho1, Ho2, Hc, Nat2Z.inj_add.
    rewrite seqZ_app by lia. do 2 f_equal. lia.
  - rewrite posted_ids_app, Hi1, Hi2, Hd1, seq_app, map_app. done.
  - rewrite patched_urls_app, posted_ids_app, map_app.
    by apply Permutation_app.
  - rewrite patch_errors_app. by apply Forall_app.
Qed.

Lemma within_eq {A : Type} (m : W A) (w : World)
    (r : World * completion A) :
  m w = r → within m w = Some r.
Proof. intros Hm. unfold within. by rewrite Hm. Qed.

Lemma pbind_normal {A B : Type} (m : P A) (k : A → P B) (w w' : World)
    (a : A) :
  m w = Some (w', Normal a) → pbind m k w = k a w'.
Proof. intros Hm. unfold pbind. by rewrite Hm. Qed.


Lemma try_except_normal {A : Type} (body : P A) (handler : Exception → P A)
    (w w' : World) (a : A) :
  body w = Some (w', Normal a) →
  try_except body handler w = Some (w', Normal a).
Proof. intros Hb. unfold try_except. by rewrite Hb. Qed.


(** One invocation: it draws its id, posts the run, computes its result
    with [compute], which begins [count] runs under the new id, and
    patches the run.  Seen from its own parent this is a subtree of
    [S count] runs. *)
Lemma subtree_root (q : option string) (n : Z) (count : nat) (v : Z)
    (compute : string → P Z) (w : World) :
  ready q w →
  (∀ w2, ready (Some (uuid4 (drawn w))) w2 →
     ∃ w3 reqs,
       compute (uuid4 (drawn w)) w2 = Some (w3, Normal v) ∧
       subtree_effect (Some (uuid4 (drawn w))) count w2 w3 reqs) →
  ∃ w' reqs,
    pbind (within uuid_uuid4_str) (λ run_id,
      pbind (within (post_run (JObj [("n", JInt n)]) "fibonacci_recursive"
                       run_id q))
        (λ _,
          try_except
            (pbind (compute run_id) (λ result,
               pbind (within (patch_run run_id
                                (Some (JObj [("result", JInt result)]))
                                None))
                 (λ _, within (wret result))))
            (λ e,
               pbind (within (patch_run run_id None (Some (exn_str e))))
                 (λ _, within (throw e))))) w = Some (w', Normal v) ∧
    subtree_effect q (S count) w w' reqs.
Proof.
  intros Hr Hc. pose proof Hr as (Hl & Hf & Hq).
  set (r := uuid4 (drawn w)) in *.
  set (w1 := {| logger := logger w; sent := sent w; clock := clock w;
                drawn := S (drawn w) |}).
  rewrite (pbind_normal (within uuid_uuid4_str) _ w w1 r) by done.
  destruct (post_run_eq (JObj [("n", JInt n)]) "fibonacci_recursive" r q w1)
    as (o & Ho & Hpost).
  cbn [logger sent clock drawn w1] in Ho, Hpost.
  rewrite (pbind_normal _ _ _ _ _ (within_eq _ _ _ Hpost)). clear Hpost.
  destruct (begin_frame r q (logger w))
    as (Hret & Hown & Hparent & Hother & Hlinks).
  rewrite Hret in Ho. injection Ho as <-.
  set (self2 := fst (_get_execution_order r q (logger w))) in *.
  match goal with
  | |- context [try_except _ _ ?w] => set (w2 := w)
  end.
  destruct (Hf (drawn w)) as [Hr_map Hr_par]; [lia|]. fold r in Hr_map, Hr_par.
  assert (present (Some r) = Some r) as Hpr by apply present_uuid4.
  assert (∀ p, present q = Some p → p ≠ r) as Hpne.
  { intros p Hp ->. by apply (ready_fresh_entry q w (drawn w) Hr). }
  assert (ready (Some r) w2) as Hr2.
  { split_and!.
    - change (logger w2) with self2. unfold self2.
      replace (fst (_get_execution_order r q (logger w)))
        with (fst (perform (Begin r q) (logger w)))
        by by rewrite perform_begin.
      by apply perform_linked.
    - intros k Hk. cbn in Hk. destruct (Hf k) as [Hk_map Hk_par]; [lia|].
      assert (uuid4 k ≠ r) as Hkr.
      { intros Heq. apply uuid4_inj in Heq. lia. }
      split; cbn [logger w2].
      + rewrite Hother; [done|done|].
        apply (ready_fresh_entry q w k Hr). lia.
      + rewrite Hlinks. destruct (present q); [|done].
        by rewrite lookup_insert_ne.
    - intros p Hp. rewrite Hpr in Hp. injection Hp as <-.
      cbn [logger w2]. rewrite Hown. eauto. }
  destruct (Hc w2 Hr2) as (w3 & reqs & Hcomp & He).
  pose proof (λ k, effect_keeps_entries _ _ _ _ _ k He) as Hkeep.
  destruct He as (Hd & Hs & Hpar & Hp & Hk & Hnew & Ho & Hi & Hu & Hx).
  cbn [logger sent clock drawn w2] in *.
  set (m := order_base q (logger w) + 1 + Z.of_nat count).
  assert (_run_map (logger w3) !! r = Some m) as Hm.
  { rewrite (Hp r Hpr). unfold counter. by rewrite Hown. }
  assert (_update_execution_order r (logger w3) =
            ({| _run_map :=
                  match present q with
                  | Some p => <[p := m]> (_run_map (logger w3))
                  | None => _run_map (logger w3)
                  end;
                _parents := delete r (_parents (logger w3)) |},
             Returned tt)) as Hend.
  { apply end_frame; [done|..].
    - rewrite Hpar, Hlinks. destruct (present q); [|done].
      by rewrite lookup_insert_eq.
    - intros p Hqp. exists (order_base q (logger w) + 1). split; [|lia].
      rewrite Hk; [by apply Hparent| |rewrite (Hparent _ Hqp); eauto].
      rewrite Hpr. intros [= ->]. by apply (Hpne _ Hqp). }
  eexists _, _. split.
  { apply try_except_normal.
    rewrite (pbind_normal _ _ _ _ _ Hcomp).
    by rewrite (pbind_normal _ _ _ _ _
                  (within_eq _ _ _ (patch_run_returned _ _ _ _ _ Hend))). }
  unfold subtree_effect. cbn [logger sent clock drawn _run_map _parents].
  split_and!.
  - lia.
  - rewrite Hs, <- !app_assoc. done.
  - rewrite Hpar, Hlinks. destruct (present q).
    + by rewrite delete_insert_eq, delete_id.
    + by rewrite delete_id.
  - intros p Hqp. rewrite Hqp, lookup_insert_eq. f_equal.
    unfold m, order_base. rewrite Hqp. lia.
  - intros k Hqk Hsk.
    assert (k ≠ r) as Hkr by (intros ->; rewrite Hr_map in Hsk; by destruct Hsk).
    assert (_run_map (logger w3) !! k = _run_map (logger w) !! k) as <-.
    { rewrite Hk; [by apply Hother| |by rewrite Hother].
      rewrite Hpr. congruence. }
    destruct (present q) as [p|]; [|done].
    rewrite lookup_insert_ne; [done|congruence].
  - intros k Hsk.
    assert (is_Some (_run_map (logger w3) !! k) ∨ present q = Some k)
      as [Hs3|Hqk].
    { destruct (present q) as [p|]; [|by left].
      apply lookup_insert_is_Some in Hsk as [->|[_ ?]]; [by right|by left]. }
    + destruct (Hnew _ Hs3) as [Hs2|(j & Hj & ->)].
      * destruct (decide (k = r)) as [->|Hkr].
        { right. exists (drawn w). split; [lia|done]. }
        destruct (decide (present q = Some k)) as [Hqk|Hqk].
        { left. by apply Hq. }
        left. by rewrite <- Hother.
      * right. exists j. split; [lia|done].
    + left. by apply Hq.
  - cbn [app post_orders post_execution_order]. rewrite post_orders_app, Ho.
    cbn [post_orders]. rewrite app_nil_r.
    rewrite (seqZ_cons (order_base q (logger w) + 1)) by lia.
    f_equal. unfold order_base at 1. rewrite Hpr. unfold counter.
    rewrite Hown. cbn. f_equal; lia.
  - cbn [app posted_ids post_id]. rewrite posted_ids_app, Hi.
    cbn [posted_ids]. by rewrite app_nil_r.
  - cbn [app patched_urls posted_ids post_id].
    rewrite patched_urls_app, posted_ids_app. cbn [patched_urls posted_ids].
    rewrite app_nil_r. cbn [map].
    rewrite <- Permutation_cons_append. by constructor.
  - cbn [app patch_errors]. rewrite patch_errors_app. cbn [patch_errors].
    apply Forall_app. split; [done|]. by repeat constructor.
Qed.

Lemma fibonacci_unfold (budget : nat) (n depth : Z) (q : option string) :
  fibonacci budget n depth q =
    pbind (within uuid_uuid4_str) (λ run_id,
      pbind (within (post_run (JObj [("n", JInt n)]) "fibonacci_recursive"
                       run_id q))
        (λ _,
          try_except
            (pbind
               (if decide (n ≤ 1) then within (wret n)
                else
                  match budget with
                  | O => beyond
                  | S budget' =>
                      pbind (fibonacci budget' (n - 1) (depth + 1)
                               (Some run_id)) (λ a,
                        pbind (fibonacci budget' (n - 2) (depth + 1)
                                 (Some run_id))
                          (λ b, within (wret (a + b))))
                  end)
               (λ result,
                  pbind (within (patch_run run_id
                                   (Some (JObj [("result", JInt result)]))
                                   None))
                    (λ _, within (wret result))))
            (λ e,
               pbind (within (patch_run run_id None (Some (exn_str e))))
                 (λ _, within (throw e))))).
Proof. by destruct budget. Qed.

(** A call of [fibonacci] whose nesting stays within the budget returns
    its value and is, for the logger and the requests, a subtree of
    [invocations] runs. *)
Lemma fibonacci_effect (budget : nat) :
  ∀ (n depth : Z) (q : option string) (w : World),
    n ≤ 1 + Z.of_nat budget →
    ready q w →
    ∃ w' reqs,
      fibonacci budget n depth q w =
        Some (w', Normal (fibonacci_value n)) ∧
      subtree_effect q (invocations (Z.to_nat n)) w w' reqs.
Proof.
  induction budget as [|budget IH]; intros n depth q w Hn Hr;
    rewrite fibonacci_unfold.
  - rewrite invocations_base by lia.
    apply (subtree_root q n 0 (fibonacci_value n)
             (λ _, if decide (n ≤ 1) then within (wret n) else beyond));
      [done|].
    intros w2 Hr2. exists w2, []. unfold fibonacci_value.
    case_decide; [|lia]. split; [done|by apply effect_none].
  - destruct (decide (n ≤ 1)) as [Hle|Hgt].
    + rewrite invocations_base by lia.
      apply (subtree_root q n 0 (fibonacci_value n)
               (λ _, within (wret n))); [done|].
      intros w2 Hr2. exists w2, []. unfold fibonacci_value.
      case_decide; [|lia]. split; [done|by apply effect_none].
    + rewrite invocations_step, fibonacci_value_step by lia.
      apply (subtree_root q n _ _
               (λ run_id,
                  pbind (fibonacci budget (n - 1) (depth + 1)
                           (Some run_id)) (λ a,
                    pbind (fibonacci budget (n - 2) (depth + 1)
                             (Some run_id))
                      (λ b, within (wret (a + b))))));
        [done|].
      intros w2 Hr2.
      destruct (IH (n - 1) (depth + 1) (Some (uuid4 (drawn w))) w2)
        as (w3 & reqs1 & Hc1 & He1);
        [lia|done|].
      pose proof (effect_ready _ _ _ _ _ Hr2 He1) as Hr3.
      destruct (IH (n - 2) (depth + 1) (Some (uuid4 (drawn w))) w3)
        as (w4 & reqs2 & Hc2 & He2);
        [lia|done|].
      exists w4, (reqs1 ++ reqs2)%list. split.
      * rewrite (pbind_normal _ _ _ _ _ Hc1).
        by rewrite (pbind_normal _ _ _ _ _ Hc2).
      * by eapply effect_then.
Qed.

Lemma fibonacci_value_nonneg (n : Z) :
  0 ≤ n → fibonacci_value n = Fib (Z.to_nat n).
Proof.
  intros Hn. unfold fibonacci_value. case_decide; [|done].
  destruct (decide (n = 0)) as [->|]; [done|].
  by replace n with 1 by lia.
Qed.

Lemma invocations_Fib (k : nat) :
  Z.of_nat (invocations k) = 2 * Fib (S k) - 1 ∧
  Z.of_nat (invocations (S k)) = 2 * Fib (S (S k)) - 1.
Proof.
  induction k as [|k [IH1 IH2]]; [done|]. split; [done|].
  change (invocations (S (S k))) with (S (invocations (S k) + invocations k)).
  change (Fib (S (S (S k)))) with (Fib (S (S k)) + Fib (S k)).
  lia.
Qed.

(** ** What a call of [fibonacci] returns and sends *)

(** X11.  For a non-negative argument [n], a call of [fibonacci] whose
    nesting stays within the interpreter's recursion limit (room for
    [n - 1] further levels) returns the Fibonacci number of [n], called
    without a parent or under a parent the logger has an entry for. *)
Theorem fibonacci_returns_fibonacci_number (budget : nat) (n depth : Z)
    (q : option string) (w : World) :
  ready q w →
  0 ≤ n →
  n ≤ 1 + Z.of_nat budget →
  ∃ w', fibonacci budget n depth q w =
          Some (w', Normal (Fib (Z.to_nat n))).
Proof.
  intros Hr Hn Hb.
  destruct (fibonacci_effect budget n depth q w Hb Hr) as (w' & _ & Hf & _).
  exists w'. by rewrite <- fibonacci_value_nonneg.
Qed.


(** X13.  The POSTs sent by a call of [fibonacci] whose nesting stays
    within the recursion limit carry consecutive execution orders in the
    order they are sent, starting one above the counter of the parent it
    is called under (at 1 for a call without a parent): the runs are
    numbered in the order they begin. *)
Theorem fibonacci_posts_consecutive_orders (budget : nat) (n depth : Z)
    (q : option string) (w : World) :
  ready q w →
  n ≤ 1 + Z.of_nat budget →
  ∃ w' v reqs,
    fibonacci budget n depth q w = Some (w', Normal v) ∧
    sent w' = (sent w ++ reqs)%list ∧
    post_orders reqs =
      seqZ (order_base q (logger w) + 1)
        (Z.of_nat (invocations (Z.to_nat n))).
Proof.
  intros Hr Hb.
  destruct (fibonacci_effect budget n depth q w Hb Hr)
    as (w' & reqs & Hf & He).
  destruct He as (_ & Hs & _ & _ & _ & _ & Ho & _).
  by exists w', (fibonacci_value n), reqs.
Qed.


(** X15.  When a call of [fibonacci] whose nesting stays within the
    recursion limit has returned, the logger's parent links are what they
    were before the call; the counter of the parent it was called under
    has advanced by the number of invocations, and the entry of every
    other id the logger knew is unchanged. *)
Theorem fibonacci_restores_links (budget : nat) (n depth : Z)
    (q : option string) (w : World) :
  ready q w →
  n ≤ 1 + Z.of_nat budget →
  ∃ w' v,
    fibonacci budget n depth q w = Some (w', Normal v) ∧
    _parents (logger w') = _parents (logger w) ∧
    (∀ p, present q = Some p →
       counter (logger w') p =
         counter (logger w) p + Z.of_nat (invocations (Z.to_nat n))) ∧
    (∀ k, present q ≠ Some k → is_Some (_run_map (logger w) !! k) →
       _run_map (logger w') !! k = _run_map (logger w) !! k).
Proof.
  intros Hr Hb.
  destruct (fibonacci_effect budget n depth q w Hb Hr)
    as (w' & reqs & Hf & He).
  destruct He as (_ & _ & Hpar & Hp & Hk & _).
  exists w', (fibonacci_value n). split_and!; try done.
  intros p Hqp. unfold counter at 1. by rewrite (Hp _ Hqp).
Qed.

(** X16.  For a non-negative argument [n], a call of [fibonacci] whose
    nesting stays within the recursion limit posts [2 * Fib (n + 1) - 1]
    runs. *)
Theorem fibonacci_number_of_runs (budget : nat) (n depth : Z)
    (q : option string) (w : World) :
  ready q w →
  0 ≤ n →
  n ≤ 1 + Z.of_nat budget →
  ∃ w' v reqs,
    fibonacci budget n depth q w = Some (w', Normal v) ∧
    sent w' = (sent w ++ reqs)%list ∧
    Z.of_nat (length (posted_ids reqs)) = 2 * Fib (S (Z.to_nat n)) - 1.
Proof.
  intros Hr Hn Hb.
  destruct (fibonacci_effect budget n depth q w Hb Hr)
    as (w' & reqs & Hf & He).
  destruct He as (_ & Hs & _ & _ & _ & _ & _ & Hi & _).
  exists w', (fibonacci_value n), reqs. split_and!; try done.
  rewrite Hi, length_map, length_seq.
  by destruct (invocations_Fib (Z.to_nat n)) as [-> _].
Qed.

(** ** The second definition of [fibonacci] *)








End CallerProperties.

(** ** The example id source *)

Lemma example_uuid4_inj (i j : nat) :
  @uuid4 example_python i = @uuid4 example_python j → i = j.
Proof.
  intros Heq. cbn [uuid4 example_python] in Heq.
  apply (inj (String.app _)) in Heq. by apply (inj pretty) in Heq.
Qed.

Lemma example_uuid4_nonempty (i : nat) :
  @uuid4 example_python i ≠ EmptyString.
Proof. done. Qed.

Lemma new_world_ready `{Python} : ready None new_world.
Proof.
  split_and!.
  - apply init_linked.
  - intros k _. cbn. by rewrite !lookup_empty.
  - intros p Hp. done.
Qed.

(** A logger that knows a root ["R"] and its child ["A"] is ready for
    runs under ["A"]. *)
Lemma example_ready_under_parent :
  @ready example_python (Some "A")
    {| logger := run [Begin "R" None; Begin "A" (Some "R")] __init__;
       sent := []; clock := 0; drawn := 0 |}.
Proof.
  pose proof (run_linked [Begin "R" None; Begin "A" (Some "R")] __init__
                init_linked) as Hl.
  split_and!; cbn [logger].
  - done.
  - intros k _.
    assert (_run_map (run [Begin "R" None; Begin "A" (Some "R")] __init__)
              !! @uuid4 example_python k = None) as Hk.
    { apply run_unmentioned; [|apply lookup_empty].
      unfold mentions. cbn -[String.app pretty].
      rewrite !bool_decide_eq_false_2; [done|..]; intros Heq;
        by inversion Heq. }
    split; [done|].
    destruct (_parents _ !! _) as [p|] eqn:Hp; [|done].
    destruct (Hl _ _ Hp) as (_ & [v Hv] & _). congruence.
  - intros p [= <-]. by vm_compute; eauto.
Qed.

Lemma patch_run_unknown_sends_nothing_witness :
  _run_map (logger new_world) !! "A" = None ∧
  @patch_run example_python "A" None None new_world =
    (new_world, Throw (Key (KeyError "A"))).
Proof.
  split; [by vm_compute|].
  apply (@patch_run_unknown_sends_nothing example_python "A" None None
           new_world).
  by vm_compute.
Defined.


Lemma fibonacci_returns_fibonacci_number_witness :
  @ready example_python None new_world ∧ 0 ≤ 4 ∧ 4 ≤ 1 + Z.of_nat 3 ∧
  ∃ w', @fibonacci example_python 3 4 0 None new_world =
          Some (w', Normal (Fib (Z.to_nat 4))).
Proof.
  split; [apply new_world_ready|]. split; [lia|]. split; [lia|].
  apply (@fibonacci_returns_fibonacci_number example_python
           example_uuid4_inj example_uuid4_nonempty 3 4 0 None new_world);
    [apply new_world_ready|lia|lia].
Defined.


Lemma fibonacci_posts_consecutive_orders_witness :
  let w := {| logger := run [Begin "R" None; Begin "A" (Some "R")] __init__;
              sent := []; clock := 0; drawn := 0 |} in
  @ready example_python (Some "A") w ∧ 4 ≤ 1 + Z.of_nat 3 ∧
  ∃ w' v reqs,
    @fibonacci example_python 3 4 0 (Some "A") w = Some (w', Normal v) ∧
    sent w' = (sent w ++ reqs)%list ∧
    post_orders reqs = seqZ (2 + 1) 9.
Proof.
  split; [apply example_ready_under_parent|]. split; [lia|].
  apply (@fibonacci_posts_consecutive_orders example_python
           example_uuid4_inj example_uuid4_nonempty 3 4 0 (Some "A")
           {| logger := run [Begin "R" None; Begin "A" (Some "R")] __init__;
              sent := []; clock := 0; drawn := 0 |});
    [apply example_ready_under_parent|lia].
Defined.


Lemma fibonacci_restores_links_witness :
  let w := {| logger := run [Begin "R" None; Begin "A" (Some "R")] __init__;
              sent := []; clock := 0; drawn := 0 |} in
  @ready example_python (Some "A") w ∧ 3 ≤ 1 + Z.of_nat 2 ∧
  _run_map (logger w) !! "A" = Some 2 ∧
  _run_map (logger w) !! "R" = Some 2 ∧
  _parents (logger w) !! "A" = Some "R" ∧
  ∃ w' v,
    @fibonacci example_python 2 3 0 (Some "A") w = Some (w', Normal v) ∧
    _parents (logger w') = _parents (logger w) ∧
    (∀ p, present (Some "A") = Some p →
       counter (logger w') p =
         counter (logger w) p + Z.of_nat (invocations (Z.to_nat 3))) ∧
    (∀ k, present (Some "A") ≠ Some k →
       is_Some (_run_map (logger w) !! k) →
       _run_map (logger w') !! k = _run_map (logger w) !! k).
Proof.
  split; [apply example_ready_under_parent|]. split; [lia|].
  split; [by vm_compute|]. split; [by vm_compute|]. split; [by vm_compute|].
  apply (@fibonacci_restores_links example_python
           example_uuid4_inj example_uuid4_nonempty 2 3 0 (Some "A")
           {| logger := run [Begin "R" None; Begin "A" (Some "R")] __init__;
              sent := []; clock := 0; drawn := 0 |});
    [apply example_ready_under_parent|lia].
Defined.

Lemma fibonacci_number_of_runs_witness :
  @ready example_python None new_world ∧ 0 ≤ 5 ∧ 5 ≤ 1 + Z.of_nat 4 ∧
  ∃ w' v reqs,
    @fibonacci example_python 4 5 0 None new_world = Some (w', Normal v) ∧
    sent w' = (sent new_world ++ reqs)%list ∧
    Z.of_nat (length (posted_ids reqs)) = 2 * Fib (S (Z.to_nat 5)) - 1.
Proof.
  split; [apply new_world_ready|]. split; [lia|]. split; [lia|].
  apply (@fibonacci_number_of_runs example_python
           example_uuid4_inj example_uuid4_nonempty 4 5 0 None new_world);
    [apply new_world_ready|lia|lia].
Defined.



(** ** An empty parent id *)

(** X19.  [post_run] called with the empty string as [parent_run_id]
    logs the run as a root: the order sent is 1 and no parent link is
    recorded; the request still carries the empty string as its
    [parent_run_id]. *)
Theorem post_run_empty_parent `{Python} (data : json)
    (name run_id : string) (w : World) :
  ∃ w' url body key,
    post_run data name run_id (Some EmptyString) w = (w', Normal tt) ∧
    sent w' = (sent w ++ [POST url body key])%list ∧
    post_parent_run_id body = Some EmptyString ∧
    post_execution_order body = 1 ∧
    _parents (logger w') = _parents (logger w).
Proof.
  destruct (post_run_eq data name run_id (Some EmptyString) w)
    as (n & Hn & ->).
  rewrite (begin_root run_id (Some EmptyString) (logger w)) in * by done.
  cbn in Hn. injection Hn as <-. by eexists _, _, _, _.
Qed.
